(** * Lazy log values and the in-memory voyage repository

    A shallow embedding of two Go files of the kit repository:

    - [log/value.go]: [Valuer], [bindValues], [containsValuer],
      [Timestamp], [TimestampFormat], [TimeFormat] and [Caller];
    - [examples/shipping/inmem/voyageRepository.go]: [voyageRepository],
      its [Find] method and [NewVoyageRepository].

    Go values of type [interface{}] are a tagged union; a Go function that
    may read or change the rest of the program (the clock, the call stack,
    a counter, an output stream) is a function on an explicit [World]; a Go
    panic is a second way for a call to end. *)

From Stdlib Require Import ZArith Ascii String Sorted.
From Stdlib.Strings Require Import Byte.
From stdpp Require Import base option list gmap strings.

Set Default Proof Using "Type".

(** ** Package [log] *)

Module Log.

(** Go's [time.Time]: an instant and the zone it is shown in. *)
Record time_Time : Type := { unixNano : Z; zoneOffset : Z }.

(** [type TimeFormat struct { Time time.Time; Layout string }] *)
Record TimeFormat : Type := { Time : time_Time; Layout : string }.

(** Go's [stack.Call] of package go-stack: a captured frame. *)
Record stack_Call : Type := { callFile : string; callLine : Z }.

(** Go's [error] interface value: [None] is [nil]. *)
Definition error : Type := option string.

Section Values.

Variable World : Type.

(** How a call of a Go function ends: it returns [a], or it panics with the
    value [p]; either way the world is what the call left behind. *)
Inductive outcome (P A : Type) : Type :=
| Ret (a : A) (w : World)
| Panic (p : P) (w : World).

(** A value of type [interface{}], by dynamic type.  [VFunc] is a plain
    [func() interface{}], [VValuer] the same function under the named type
    [Valuer]: the two are different dynamic types. *)
#[warnings="-register-all"]
Inductive value : Type :=
| VNil
| VBool (b : bool)
| VInt (n : Z)
| VString (s : string)
| VTime (t : time_Time)
| VTimeFormat (tf : TimeFormat)
| VCall (c : stack_Call)
| VFunc (f : World -> outcome value value)
| VValuer (v : World -> outcome value value).

(** [type Valuer func() interface{}] *)
Definition Valuer : Type := World -> outcome value value.

(** The type assertion [x.(Valuer)], in its two-result form [v, ok]. *)
Definition as_Valuer (x : value) : option Valuer :=
  match x with
  | VValuer v => Some v
  | _ => None
  end.

(** How a function over the slice [keyvals] ends.  The slice is shared with
    the caller, so its elements are part of what the call leaves behind,
    also when it panics.  [OutOfFuel] is the model's own: the loop ran
    longer than the fuel it was given. *)
Inductive exec (A : Type) : Type :=
| Done (a : A) (keyvals : list value) (w : World)
| Panicked (p : value) (keyvals : list value) (w : World)
| OutOfFuel.

(** The panic of Go's runtime at [keyvals[i]] with [i] out of range. *)
Definition index_out_of_range : value :=
  VString "runtime error: index out of range".

(** The loop of [bindValues], entered at index [i]:
    [for ; i < len(keyvals); i += 2 { if v, ok := keyvals[i].(Valuer); ok
    { keyvals[i] = v() } }].  The index is an [int] in Go; it stays below
    [len(keyvals) + 2], far from the end of its range, so it is a [nat]
    here. *)
Fixpoint bindValues_loop (fuel i : nat) (keyvals : list value) (w : World)
  : exec unit :=
  match fuel with
  | O => OutOfFuel unit
  | S fuel' =>
      if i <? length keyvals then
        match keyvals !! i with
        | None => Panicked unit index_out_of_range keyvals w
        | Some x =>
            match as_Valuer x with
            | Some v =>
                match v w with
                | Ret _ _ r w' =>
                    bindValues_loop fuel' (i + 2) (<[i := r]> keyvals) w'
                | Panic _ _ p w' => Panicked unit p keyvals w'
                end
            | None => bindValues_loop fuel' (i + 2) keyvals w
            end
        end
      else Done unit tt keyvals w
  end.

(** [func bindValues(keyvals []interface{})] *)
Definition bindValues (keyvals : list value) (w : World) : exec unit :=
  bindValues_loop (S (length keyvals)) 1 keyvals w.

(** The loop of [containsValuer], entered at index [i]. *)
Fixpoint containsValuer_loop (fuel i : nat) (keyvals : list value) (w : World)
  : exec bool :=
  match fuel with
  | O => OutOfFuel bool
  | S fuel' =>
      if i <? length keyvals then
        match keyvals !! i with
        | None => Panicked bool index_out_of_range keyvals w
        | Some x =>
            match as_Valuer x with
            | Some _ => Done bool true keyvals w
            | None => containsValuer_loop fuel' (i + 2) keyvals w
            end
        end
      else Done bool false keyvals w
  end.

(** [func containsValuer(keyvals []interface{}) bool] *)
Definition containsValuer (keyvals : list value) (w : World) : exec bool :=
  containsValuer_loop (S (length keyvals)) 1 keyvals w.

(** [func Timestamp(t func() time.Time) Valuer] *)
Definition Timestamp (t : World -> outcome value time_Time) : Valuer :=
  fun w =>
    match t w with
    | Ret _ _ x w' => Ret value value (VTime x) w'
    | Panic _ _ p w' => Panic value value p w'
    end.

(** [func TimestampFormat(t func() time.Time, layout string) Valuer] *)
Definition TimestampFormat (t : World -> outcome value time_Time)
    (layout : string) : Valuer :=
  fun w =>
    match t w with
    | Ret _ _ x w' =>
        Ret value value (VTimeFormat {| Time := x; Layout := layout |}) w'
    | Panic _ _ p w' => Panic value value p w'
    end.

(** [func Caller(depth int) Valuer], over [stack.Caller] of go-stack, which
    reads the call stack of the running goroutine. *)
Definition Caller (stack_Caller : Z -> World -> stack_Call) (depth : Z)
  : Valuer :=
  fun w => Ret value value (VCall (stack_Caller depth w)) w.

(** Go's [time.RFC3339Nano]. *)
Definition time_RFC3339Nano : string := "2006-01-02T15:04:05.999999999Z07:00".

(** [DefaultTimestamp], [DefaultTimestampUTC] and [DefaultCaller], over
    Go's [time.Now] and [Time.UTC]. *)
Definition DefaultTimestamp (time_Now : World -> outcome value time_Time)
  : Valuer :=
  TimestampFormat time_Now time_RFC3339Nano.

Definition DefaultTimestampUTC (time_Now : World -> outcome value time_Time)
    (time_UTC : time_Time -> time_Time) : Valuer :=
  TimestampFormat
    (fun w =>
       match time_Now w with
       | Ret _ _ x w' => Ret value time_Time (time_UTC x) w'
       | Panic _ _ p w' => Panic value time_Time p w'
       end)
    time_RFC3339Nano.

Definition DefaultCaller (stack_Caller : Z -> World -> stack_Call) : Valuer :=
  Caller stack_Caller 3.

End Values.

Arguments Ret {World P A} a w.
Arguments Panic {World P A} p w.
Arguments VNil {World}.
Arguments VBool {World} b.
Arguments VInt {World} n.
Arguments VString {World} s.
Arguments VTime {World} t.
Arguments VTimeFormat {World} tf.
Arguments VCall {World} c.
Arguments VFunc {World} f.
Arguments VValuer {World} v.
Arguments as_Valuer {World} x.
Arguments Done {World A} a keyvals w.
Arguments Panicked {World A} p keyvals w.
Arguments OutOfFuel {World A}.
Arguments index_out_of_range {World}.
Arguments bindValues_loop {World} fuel i keyvals w.
Arguments bindValues {World} keyvals w.
Arguments containsValuer_loop {World} fuel i keyvals w.
Arguments containsValuer {World} keyvals w.
Arguments Timestamp {World} t w.
Arguments TimestampFormat {World} t layout w.
Arguments Caller {World} stack_Caller depth w.

(** *** Rendering a [TimeFormat] *)

Section Rendering.

(** Go's [Time.Format] and [Time.AppendFormat], of the standard library. *)
Variable time_Format : time_Time -> string -> string.
Variable time_AppendFormat : time_Time -> list byte -> string -> list byte.

(** [make([]byte, n, c)]: [n] zero bytes; the capacity [c] is room to grow
    and holds no element. *)
Definition make_bytes (n c : nat) : list byte := replicate n x00.

(** [func (tf TimeFormat) String() string] *)
Definition TimeFormat_String (tf : TimeFormat) : string :=
  time_Format (Time tf) (Layout tf).

(** [func (tf TimeFormat) MarshalText() (text []byte, err error)] *)
Definition TimeFormat_MarshalText (tf : TimeFormat) : list byte * error :=
  let b := make_bytes 0 (String.length (Layout tf) + 10) in
  let b := time_AppendFormat (Time tf) b (Layout tf) in
  (b, None).

End Rendering.


(** *** Resolution by key/value pairs

    The functions of this section are not in the source.  They say what the
    two loops compute by recursion on the sequence, one key and one value at
    a time; the loops are proved equal to them below, and the properties of
    the loops are then proved by induction on the sequence. *)

Section Resolution.

Context {World : Type}.

(** Whether slot [i] of [keyvals] exists and holds a [Valuer]. *)
Definition holds_Valuer (keyvals : list (value World)) (i : nat) : bool :=
  match keyvals !! i with
  | Some x => bool_decide (is_Some (as_Valuer x))
  | None => false
  end.

(** The slots [pre] come before the slots an execution worked on. *)
Definition exec_prepend {A : Type} (pre : list (value World))
    (e : exec World A) : exec World A :=
  match e with
  | Done a kvs w => Done a (pre ++ kvs) w
  | Panicked p kvs w => Panicked p (pre ++ kvs) w
  | OutOfFuel => OutOfFuel
  end.

(** What the loop of [bindValues] does to the slots from an even index on:
    they are a key, a value, and the rest. *)
Fixpoint bind_pairs (kvs : list (value World)) (w : World)
  : exec World unit :=
  match kvs with
  | k :: x :: rest =>
      match as_Valuer x with
      | Some v =>
          match v w with
          | Ret r w' => exec_prepend [k; r] (bind_pairs rest w')
          | Panic p w' => Panicked p kvs w'
          end
      | None => exec_prepend [k; x] (bind_pairs rest w)
      end
  | _ => Done tt kvs w
  end.

(** What the loop of [containsValuer] answers for the slots from an even
    index on. *)
Fixpoint contains_pairs (kvs : list (value World)) : bool :=
  match kvs with
  | k :: x :: rest =>
      match as_Valuer x with
      | Some _ => true
      | None => contains_pairs rest
      end
  | _ => false
  end.

(** The [Valuer]s in the odd slots of [kvs], each with its index, by
    ascending index; [i] is the index of the first slot of [kvs]. *)
Fixpoint Valuers_from (i : nat) (kvs : list (value World))
  : list (nat * Valuer World) :=
  match kvs with
  | [] => []
  | x :: kvs' =>
      match as_Valuer x with
      | Some v =>
          if Nat.odd i then (i, v) :: Valuers_from (S i) kvs'
          else Valuers_from (S i) kvs'
      | None => Valuers_from (S i) kvs'
      end
  end.

Definition odd_slot_Valuers (keyvals : list (value World))
  : list (nat * Valuer World) :=
  Valuers_from 0 keyvals.

(** Invoking the [Valuer]s of a list one after the other, first to last,
    each in the world the one before left; the first panic ends it. *)
Fixpoint invoke_in_order (vs : list (nat * Valuer World)) (w : World)
  : outcome World (value World) unit :=
  match vs with
  | [] => Ret tt w
  | (_, v) :: vs' =>
      match v w with
      | Ret _ w' => invoke_in_order vs' w'
      | Panic p w' => Panic p w'
      end
  end.

(** What a caller can observe of an execution besides the slice: that it
    panicked or not, and the world. *)
Definition effect_of {A : Type} (e : exec World A)
  : option (outcome World (value World) unit) :=
  match e with
  | Done _ _ w => Some (Ret tt w)
  | Panicked p _ w => Some (Panic p w)
  | OutOfFuel => None
  end.

(** One value slot of a completed resolution: [x] in world [w] becomes [y]
    in world [w1].  Either [x] is not a [Valuer] and nothing changes, or
    [x] is a [Valuer] that returns [y] and leaves [w1]. *)
Definition slot_resolves (x : value World) (w : World) (y : value World)
    (w1 : World) : Prop :=
  (as_Valuer x = None ∧ y = x ∧ w1 = w)
  ∨ (∃ v, as_Valuer x = Some v ∧ v w = Ret y w1).

End Resolution.

(** *** A world and some [Valuer]s for examples *)

(** A clock, in nanoseconds, and the lines written so far. *)
Record sample_world : Type := { clock : Z; written : list string }.

Definition sample_start : sample_world := {| clock := 1000; written := [] |}.

(** A [Valuer] that writes the line [s] and returns [r]. *)
Definition says (s : string) (r : value sample_world) : Valuer sample_world :=
  fun w => Ret r {| clock := clock w; written := written w ++ [s] |}.

(** A [Valuer] that writes the line [s] and then panics with [s]. *)
Definition fails (s : string) : Valuer sample_world :=
  fun w => Panic (VString s) {| clock := clock w; written := written w ++ [s] |}.

(** A time source: it reads the clock, which ticks. *)
Definition ticking : sample_world → outcome sample_world (value sample_world) time_Time :=
  fun w =>
    Ret {| unixNano := clock w; zoneOffset := 0 |}
        {| clock := clock w + 1; written := written w |}.

(** A [Valuer] whose value is again a [Valuer]. *)
Definition nested : Valuer sample_world :=
  fun w => Ret (VValuer (says "inner" (VInt 1))) w.

(** A rendering for examples, in the manner of Go's: the hour, the minute
    and the second of the instant take the place of ["15"], ["04"] and
    ["05"] in the layout, and every other character of the layout stays. *)
Definition two_digits (n : Z) : string :=
  String (ascii_of_nat (48 + Z.to_nat ((n / 10) mod 10)))
    (String (ascii_of_nat (48 + Z.to_nat (n mod 10))) EmptyString).

Definition seconds_of_day (t : time_Time) : Z :=
  ((unixNano t / 1000000000) + zoneOffset t) mod 86400.

Fixpoint sample_render (t : time_Time) (layout : string) : string :=
  match layout with
  | String a (String b rest as tail) =>
      let s := seconds_of_day t in
      if String.eqb (String a (String b EmptyString)) "15"
      then two_digits (s / 3600) +:+ sample_render t rest
      else if String.eqb (String a (String b EmptyString)) "04"
      then two_digits ((s / 60) mod 60) +:+ sample_render t rest
      else if String.eqb (String a (String b EmptyString)) "05"
      then two_digits (s mod 60) +:+ sample_render t rest
      else String a (sample_render t tail)
  | _ => layout
  end.

Definition sample_Format (t : time_Time) (layout : string) : string :=
  sample_render t layout.

Definition sample_AppendFormat (t : time_Time) (b : list byte)
    (layout : string) : list byte :=
  b ++ list_byte_of_string (sample_render t layout).

(** 01:02:03 on the first day of 1970, shown one hour to the east. *)
Definition sample_instant : time_Time :=
  {| unixNano := 123000000000; zoneOffset := 3600 |}.

(** A sequence with one timestamp, and the same sequence once bound at
    [sample_start]. *)
Definition sample_keyvals : list (value sample_world) :=
  [VString "ts"; VValuer (TimestampFormat ticking "15:04:05");
   VString "msg"; VString "hello"].

Definition sample_bound : list (value sample_world) :=
  [VString "ts";
   VTimeFormat {| Time := {| unixNano := 1000; zoneOffset := 0 |};
                  Layout := "15:04:05" |};
   VString "msg"; VString "hello"].

(** A sequence whose second [Valuer] panics. *)
Definition sample_failing : list (value sample_world) :=
  [VString "ts"; VValuer (says "first" (VInt 7));
   VString "caller"; VValuer (fails "boom");
   VString "msg"; VValuer (says "never" VNil)].

(** *** More about the two loops *)

Section Observations.

Context {World : Type}.

(** The slice as an execution left it, whether it completed or panicked. *)
Definition final_keyvals {A : Type} (e : exec World A)
  : option (list (value World)) :=
  match e with
  | Done _ kvs _ => Some kvs
  | Panicked _ kvs _ => Some kvs
  | OutOfFuel => None
  end.

(** The [Valuer]s the constructors of this file make: [Timestamp],
    [TimestampFormat] and [Caller] (and so the three defaults). *)
Inductive made_by_package : Valuer World → Prop :=
| made_by_Timestamp t : made_by_package (Timestamp t)
| made_by_TimestampFormat t layout :
    made_by_package (TimestampFormat t layout)
| made_by_Caller stack_Caller depth :
    made_by_package (Caller stack_Caller depth).

End Observations.

(** *** The loops and the recursion by pairs *)

Section Loops.

Context {World : Type}.

Implicit Types (keyvals kvs pre suf rest : list (value World)) (w : World).

(** Induction on a sequence two slots at a time. *)
Lemma pairs_ind {A : Type} (P : list A → Prop) :
  P [] → (∀ a, P [a]) → (∀ a b l, P l → P (a :: b :: l)) →
  ∀ l, P l.
Proof.
  intros Hnil Hone Hstep l.
  cut (P l ∧ ∀ a, P (a :: l)); [tauto|].
  induction l as [|y l [IH1 IH2]]; split; auto.
Qed.

Lemma exec_prepend_nil {A : Type} (e : exec World A) :
  exec_prepend [] e = e.
Proof. by destruct e. Qed.

Lemma exec_prepend_app {A : Type} pre suf (e : exec World A) :
  exec_prepend (pre ++ suf) e = exec_prepend pre (exec_prepend suf e).
Proof. destruct e; simpl; by rewrite <- ?(assoc_L (++)). Qed.

(** The slot after the first key of [suf], seen from the whole slice. *)
Lemma lookup_value_slot pre k x rest :
  (pre ++ k :: x :: rest) !! S (length pre) = Some x.
Proof.
  rewrite lookup_app_r by lia.
  by replace (S (length pre) - length pre) with 1 by lia.
Qed.

Lemma insert_value_slot pre k x r rest :
  <[S (length pre) := r]> (pre ++ k :: x :: rest) = (pre ++ [k; r]) ++ rest.
Proof.
  rewrite insert_app_r_alt by lia.
  replace (S (length pre) - length pre) with 1 by lia.
  by rewrite <- (assoc_L (++)).
Qed.

Lemma value_slot_in_range pre k x rest :
  (S (length pre) <? length (pre ++ k :: x :: rest)) = true.
Proof. apply Nat.ltb_lt. rewrite length_app. simpl. lia. Qed.

Lemma value_slot_next pre k r :
  S (length pre) + 2 = S (length (pre ++ [k; r])).
Proof. rewrite length_app. simpl. lia. Qed.

(** The loop of [bindValues], entered at the value slot of the first pair
    of [suf], does to [suf] what [bind_pairs] does, and leaves [pre]. *)
Lemma bindValues_loop_pairs suf :
  ∀ pre w fuel, length suf < fuel →
    bindValues_loop fuel (S (length pre)) (pre ++ suf) w
    = exec_prepend pre (bind_pairs suf w).
Proof.
  induction suf as [|x|k x rest IH] using pairs_ind;
    intros pre w [|fuel] Hfuel; simpl in Hfuel; try lia.
  - simpl. rewrite length_app. simpl.
    by replace (S (length pre) <? length pre + 0) with false
      by (symmetry; apply Nat.ltb_ge; lia).
  - simpl. rewrite length_app. simpl.
    by replace (S (length pre) <? length pre + 1) with false
      by (symmetry; apply Nat.ltb_ge; lia).
  - cbn [bindValues_loop bind_pairs].
    rewrite value_slot_in_range, lookup_value_slot.
    destruct (as_Valuer x) as [v|].
    + destruct (v w) as [r w'|p w']; [|done].
      rewrite insert_value_slot, (value_slot_next pre k r), IH by lia.
      by rewrite exec_prepend_app.
    + replace (pre ++ k :: x :: rest) with ((pre ++ [k; x]) ++ rest)
        by (by rewrite <- (assoc_L (++))).
      rewrite (value_slot_next pre k x), IH by lia.
      by rewrite exec_prepend_app.
Qed.

Lemma bindValues_pairs keyvals w :
  bindValues keyvals w = bind_pairs keyvals w.
Proof.
  unfold bindValues.
  rewrite <- (exec_prepend_nil (bind_pairs keyvals w)).
  apply (bindValues_loop_pairs keyvals []). lia.
Qed.

Lemma containsValuer_loop_pairs suf :
  ∀ pre w fuel, length suf < fuel →
    containsValuer_loop fuel (S (length pre)) (pre ++ suf) w
    = Done (contains_pairs suf) (pre ++ suf) w.
Proof.
  induction suf as [|x|k x rest IH] using pairs_ind;
    intros pre w [|fuel] Hfuel; simpl in Hfuel; try lia.
  - simpl. rewrite length_app. simpl.
    by replace (S (length pre) <? length pre + 0) with false
      by (symmetry; apply Nat.ltb_ge; lia).
  - simpl. rewrite length_app. simpl.
    by replace (S (length pre) <? length pre + 1) with false
      by (symmetry; apply Nat.ltb_ge; lia).
  - cbn [containsValuer_loop contains_pairs].
    rewrite value_slot_in_range, lookup_value_slot.
    destruct (as_Valuer x) as [v|]; [done|].
    replace (pre ++ k :: x :: rest) with ((pre ++ [k; x]) ++ rest)
      by (by rewrite <- (assoc_L (++))).
    rewrite (value_slot_next pre k x). apply IH. lia.
Qed.

Lemma containsValuer_pairs keyvals w :
  containsValuer keyvals w = Done (contains_pairs keyvals) keyvals w.
Proof.
  unfold containsValuer.
  apply (containsValuer_loop_pairs keyvals []). lia.
Qed.

(** *** Facts about the recursion by pairs *)

Lemma as_Valuer_Some (x : value World) v :
  as_Valuer x = Some v ↔ x = VValuer v.
Proof. split; [by destruct x; intros [= ->]|by intros ->]. Qed.

Lemma holds_Valuer_lookup keyvals i x :
  keyvals !! i = Some x →
  holds_Valuer keyvals i = bool_decide (is_Some (as_Valuer x)).
Proof. unfold holds_Valuer. by intros ->. Qed.

Lemma holds_Valuer_false keyvals i x :
  keyvals !! i = Some x → holds_Valuer keyvals i = false →
  as_Valuer x = None.
Proof.
  intros Hx. rewrite (holds_Valuer_lookup _ _ _ Hx).
  destruct (as_Valuer x); [|done].
  intros Hd. apply bool_decide_eq_false in Hd. by destruct Hd.
Qed.

Lemma holds_Valuer_true keyvals i :
  holds_Valuer keyvals i = true ↔ ∃ v, keyvals !! i = Some (VValuer v).
Proof.
  unfold holds_Valuer. split.
  - destruct (keyvals !! i) as [x|]; [|done].
    intros [v Hv]%bool_decide_eq_true. exists v.
    by apply as_Valuer_Some in Hv as ->.
  - by intros [v ->].
Qed.

Lemma holds_Valuer_cons2 k x rest i :
  holds_Valuer (k :: x :: rest) (S (S i)) = holds_Valuer rest i.
Proof. done. Qed.

Lemma exec_prepend_Done {A : Type} pre (e : exec World A) a kvs w :
  exec_prepend pre e = Done a kvs w →
  ∃ kvs0, e = Done a kvs0 w ∧ kvs = pre ++ kvs0.
Proof. destruct e; intros [= <- <- <-]. eauto. Qed.

Lemma exec_prepend_Panicked {A : Type} pre (e : exec World A) p kvs w :
  exec_prepend pre e = Panicked p kvs w →
  ∃ kvs0, e = Panicked p kvs0 w ∧ kvs = pre ++ kvs0.
Proof. destruct e; intros [= <- <- <-]. eauto. Qed.

(** A slot that resolves lets the recursion go on to the next pair. *)
Lemma bind_pairs_resolves k x rest w y w1 :
  slot_resolves x w y w1 →
  bind_pairs (k :: x :: rest) w = exec_prepend [k; y] (bind_pairs rest w1).
Proof.
  intros [(Hx & -> & ->)|(v & Hx & Hv)]; simpl; rewrite Hx; [done|].
  by rewrite Hv.
Qed.

(** A completed resolution resolved its first value slot and the rest. *)
Lemma bind_pairs_cons_Done k x rest w kvs' w' :
  bind_pairs (k :: x :: rest) w = Done tt kvs' w' →
  ∃ y w1 rest',
    kvs' = k :: y :: rest' ∧ slot_resolves x w y w1
    ∧ bind_pairs rest w1 = Done tt rest' w'.
Proof.
  simpl. destruct (as_Valuer x) as [v|] eqn:Hx.
  - destruct (v w) as [r w1|p w1] eqn:Hv; [|done].
    intros (rest' & Hrest & ->)%exec_prepend_Done.
    exists r, w1, rest'. split_and!; [done| |done]. right. eauto.
  - intros (rest' & Hrest & ->)%exec_prepend_Done.
    exists x, w, rest'. split_and!; [done| |done]. by left.
Qed.

(** A resolution that panicked did so at its first value slot, or resolved
    that slot and panicked in the rest. *)
Lemma bind_pairs_cons_Panicked k x rest w p kvs' w' :
  bind_pairs (k :: x :: rest) w = Panicked p kvs' w' →
  (∃ v, as_Valuer x = Some v ∧ v w = Panic p w' ∧ kvs' = k :: x :: rest)
  ∨ (∃ y w1 rest',
       kvs' = k :: y :: rest' ∧ slot_resolves x w y w1
       ∧ bind_pairs rest w1 = Panicked p rest' w').
Proof.
  simpl. destruct (as_Valuer x) as [v|] eqn:Hx.
  - destruct (v w) as [r w1|q w1] eqn:Hv.
    + intros (rest' & Hrest & ->)%exec_prepend_Panicked.
      right. exists r, w1, rest'. split_and!; [done| |done]. right. eauto.
    + intros [= <- <- <-]. left. eauto.
  - intros (rest' & Hrest & ->)%exec_prepend_Panicked.
    right. exists x, w, rest'. split_and!; [done| |done]. by left.
Qed.

Lemma bind_pairs_fuel kvs : ∀ w, bind_pairs kvs w ≠ OutOfFuel.
Proof.
  induction kvs as [|x|k x rest IH] using pairs_ind; intros w; try done.
  simpl. destruct (as_Valuer x) as [v|].
  - destruct (v w) as [r w1|p w1]; [|done].
    specialize (IH w1). by destruct (bind_pairs rest w1).
  - specialize (IH w). by destruct (bind_pairs rest w).
Qed.

(** The slots of a completed resolution, one by one. *)
Lemma bind_pairs_Done kvs :
  ∀ w kvs' w', bind_pairs kvs w = Done tt kvs' w' →
    length kvs' = length kvs
    ∧ (∀ i, Nat.even i = true → kvs' !! i = kvs !! i)
    ∧ (∀ i, Nat.odd i = true → holds_Valuer kvs i = false →
         kvs' !! i = kvs !! i)
    ∧ (∀ i v, Nat.odd i = true → kvs !! i = Some (VValuer v) →
         ∃ pre wi r wi',
           bind_pairs (take i kvs) w = Done tt pre wi
           ∧ v wi = Ret r wi' ∧ kvs' !! i = Some r).
Proof.
  induction kvs as [|x|k x rest IH] using pairs_ind; intros w kvs' w' Hrun.
  - injection Hrun as <- <-. split_and!; done.
  - injection Hrun as <- <-. split_and!; try done; by intros [|[|i]].
  - apply bind_pairs_cons_Done in Hrun as (y & w1 & rest' & -> & Hy & Hrest).
    destruct (IH _ _ _ Hrest) as (Hlen & Heven & Hstatic & Hbound).
    split_and!.
    + simpl. by rewrite Hlen.
    + intros [|[|i]] Hi; try done. by apply Heven.
    + intros [|[|i]] Hi Hno; try done.
      * simpl. f_equal.
        destruct Hy as [(_ & -> & _)|(v & Hx & _)]; [done|].
        by rewrite (holds_Valuer_false (k :: x :: rest) 1 x eq_refl Hno) in Hx.
      * by apply Hstatic.
    + intros [|[|i]] v Hi Hv; try done.
      * injection Hv as ->.
        destruct Hy as [([=] & _)|(v' & [= <-] & Hv')].
        exists [k], w, y, w1. by rewrite Hv'.
      * destruct (Hbound i v Hi Hv) as (pre & wi & r & wi' & Hpre & Hr & Hi').
        exists (k :: y :: pre), wi, r, wi'. split_and!; [|done|done].
        change (take (S (S i)) (k :: x :: rest)) with (k :: x :: take i rest).
        by rewrite (bind_pairs_resolves _ _ _ _ _ _ Hy), Hpre.
Qed.

(** With no [Valuer] in an odd slot the resolution changes nothing. *)
Lemma bind_pairs_static kvs :
  ∀ w, (∀ i, Nat.odd i = true → holds_Valuer kvs i = false) →
    bind_pairs kvs w = Done tt kvs w.
Proof.
  induction kvs as [|x|k x rest IH] using pairs_ind; intros w Hno; try done.
  rewrite (bind_pairs_resolves k x rest w x w).
  - rewrite IH; [done|]. intros i Hi. by apply (Hno (S (S i))).
  - left. split_and!; try done.
    by apply (holds_Valuer_false (k :: x :: rest) 1); [|apply Hno].
Qed.

(** When no [Valuer] of an odd slot panics, the resolution completes. *)
Lemma bind_pairs_total kvs :
  ∀ w,
    (∀ i v, Nat.odd i = true → kvs !! i = Some (VValuer v) →
       ∀ wi, ∃ r wi', v wi = Ret r wi') →
    ∃ kvs' w', bind_pairs kvs w = Done tt kvs' w'.
Proof.
  induction kvs as [|x|k x rest IH] using pairs_ind; intros w Hret;
    [by eexists _, _..|].
  assert (∃ y w1, slot_resolves x w y w1) as (y & w1 & Hy).
  { destruct (as_Valuer x) as [v|] eqn:Hx.
    - apply as_Valuer_Some in Hx as ->.
      destruct (Hret 1 v eq_refl eq_refl w) as (r & w1 & Hv).
      exists r, w1. right. eauto.
    - exists x, w. by left. }
  destruct (IH w1) as (rest' & w' & Hrest).
  { intros i v Hi Hv. by apply (Hret (S (S i))). }
  exists (k :: y :: rest'), w'.
  by rewrite (bind_pairs_resolves _ _ _ _ _ _ Hy), Hrest.
Qed.

(** *** [bindValues] *)

(** C1. [bindValues] always ends within its fuel; it completes when no
    [Valuer] of an odd slot panics; when it completes, the sequence has the
    length it had, every even slot and every odd slot that held no
    [Valuer] is what it was, and every odd slot that held a [Valuer] [v]
    holds what [v] returned when it was invoked, in the world the slots
    before it left; with no [Valuer] in any odd slot, and so on the empty
    sequence, the call changes nothing. *)
Theorem bindValues_spec keyvals w :
  bindValues keyvals w ≠ OutOfFuel
  ∧ ((∀ i v, Nat.odd i = true → keyvals !! i = Some (VValuer v) →
        ∀ wi, ∃ r wi', v wi = Ret r wi') →
     ∃ kv' w', bindValues keyvals w = Done tt kv' w')
  ∧ (∀ kv' w', bindValues keyvals w = Done tt kv' w' →
       length kv' = length keyvals
       ∧ (∀ i, Nat.even i = true → kv' !! i = keyvals !! i)
       ∧ (∀ i, Nat.odd i = true → holds_Valuer keyvals i = false →
            kv' !! i = keyvals !! i)
       ∧ (∀ i v, Nat.odd i = true → keyvals !! i = Some (VValuer v) →
            ∃ pre wi r wi',
              bindValues (take i keyvals) w = Done tt pre wi
              ∧ v wi = Ret r wi' ∧ kv' !! i = Some r))
  ∧ ((∀ i, Nat.odd i = true → holds_Valuer keyvals i = false) →
     bindValues keyvals w = Done tt keyvals w)
  ∧ bindValues [] w = Done tt [] w.
Proof.
  split_and!.
  - rewrite bindValues_pairs. apply bind_pairs_fuel.
  - intros Hret. rewrite bindValues_pairs. by apply bind_pairs_total.
  - intros kv' w' Hrun. rewrite bindValues_pairs in Hrun.
    destruct (bind_pairs_Done _ _ _ _ Hrun) as (Hlen & Heven & Hstatic & Hbound).
    split_and!; [done..|].
    intros i v Hi Hv. rewrite bindValues_pairs. by apply Hbound.
  - intros Hno. rewrite bindValues_pairs. by apply bind_pairs_static.
  - done.
Qed.

(** *** [containsValuer] *)

Lemma contains_pairs_true kvs :
  contains_pairs kvs = true
  ↔ ∃ i, Nat.odd i = true ∧ holds_Valuer kvs i = true.
Proof.
  induction kvs as [|x|k x rest IH] using pairs_ind.
  - split; [done|]. by intros (i & _ & Hi).
  - split; [done|]. by intros ([|[|i]] & Hodd & Hi).
  - simpl. destruct (as_Valuer x) as [v|] eqn:Hx.
    + split; [|done]. intros _. exists 1. split; [done|].
      rewrite (holds_Valuer_lookup (k :: x :: rest) 1 x eq_refl), Hx.
      by apply bool_decide_eq_true.
    + rewrite IH. split.
      * intros (i & Hodd & Hi). by exists (S (S i)).
      * intros ([|[|i]] & Hodd & Hi); [done| |by exists i].
        rewrite (holds_Valuer_lookup (k :: x :: rest) 1 x eq_refl), Hx in Hi.
        apply bool_decide_eq_true in Hi. by destruct Hi.
Qed.

(** C2. [containsValuer] answers [true] exactly when some odd slot holds a
    [Valuer]; so it answers [false] on a sequence with none, and on the
    empty one; and it leaves the sequence (and the world) as they were. *)
Theorem containsValuer_spec keyvals w :
  ∃ b,
    containsValuer keyvals w = Done b keyvals w
    ∧ (b = true
       ↔ ∃ i v, Nat.odd i = true ∧ keyvals !! i = Some (VValuer v))
    ∧ ((∀ i, Nat.odd i = true → holds_Valuer keyvals i = false) →
       b = false)
    ∧ containsValuer [] w = Done false [] w.
Proof.
  exists (contains_pairs keyvals). split_and!.
  - apply containsValuer_pairs.
  - rewrite contains_pairs_true. split.
    + intros (i & Hodd & (v & Hv)%holds_Valuer_true). eauto.
    + intros (i & v & Hodd & Hv). exists i. split; [done|].
      apply holds_Valuer_true. eauto.
  - intros Hno. apply not_true_is_false.
    intros (i & Hodd & Hi)%contains_pairs_true.
    by rewrite (Hno i Hodd) in Hi.
  - done.
Qed.

(** C8. What [containsValuer] answers depends on which odd slots hold a
    [Valuer] and on nothing else: two sequences that agree on that get the
    same answer, whatever their [Valuer]s would do and in whatever worlds
    the calls are made; and each call completes with its sequence and its
    world as they were, so no [Valuer] ran. *)
Theorem containsValuer_invokes_nothing keyvals1 keyvals2 w1 w2 :
  (∀ i, Nat.odd i = true →
     holds_Valuer keyvals1 i = holds_Valuer keyvals2 i) →
  ∃ b,
    containsValuer keyvals1 w1 = Done b keyvals1 w1
    ∧ containsValuer keyvals2 w2 = Done b keyvals2 w2.
Proof.
  intros Hsame. exists (contains_pairs keyvals1).
  split; [apply containsValuer_pairs|].
  rewrite containsValuer_pairs. f_equal.
  apply eq_true_iff_eq. rewrite !contains_pairs_true.
  split; intros (i & Hodd & Hi); exists i; split; try done;
    specialize (Hsame i Hodd); congruence.
Qed.

(** *** One level of resolution *)

Lemma holds_Valuer_None keyvals i x :
  keyvals !! i = Some x → as_Valuer x = None →
  holds_Valuer keyvals i = false.
Proof.
  intros Hx Hno. rewrite (holds_Valuer_lookup _ _ _ Hx), Hno.
  apply bool_decide_eq_false. by intros [? ?].
Qed.

(** C3, amended. After a call of [bindValues] that completes, and in which
    no [Valuer] that was invoked returned another [Valuer], no odd slot
    holds a [Valuer], and a second call, in any world, changes nothing. *)
Theorem bindValues_resolved keyvals w kv' w' :
  (∀ i v pre wi r wi',
     Nat.odd i = true → keyvals !! i = Some (VValuer v) →
     bindValues (take i keyvals) w = Done tt pre wi → v wi = Ret r wi' →
     as_Valuer r = None) →
  bindValues keyvals w = Done tt kv' w' →
  (∀ i, Nat.odd i = true → holds_Valuer kv' i = false)
  ∧ (∀ w2, bindValues kv' w2 = Done tt kv' w2).
Proof.
  intros Hflat Hrun.
  assert (∀ i, Nat.odd i = true → holds_Valuer kv' i = false) as Hnone.
  { rewrite bindValues_pairs in Hrun.
    destruct (bind_pairs_Done _ _ _ _ Hrun) as (_ & _ & Hstatic & Hbound).
    intros i Hi. destruct (holds_Valuer keyvals i) eqn:Hheld.
    - apply holds_Valuer_true in Hheld as [v Hv].
      destruct (Hbound i v Hi Hv) as (pre & wi & r & wi' & Hpre & Hr & Hslot).
      apply (holds_Valuer_None _ _ r Hslot).
      apply (Hflat i v pre wi r wi'); try done.
      by rewrite bindValues_pairs.
    - unfold holds_Valuer. rewrite (Hstatic i Hi Hheld). exact Hheld. }
  split; [done|]. intros w2.
  rewrite bindValues_pairs. by apply bind_pairs_static.
Qed.

(** *** The order of the invocations *)

Lemma Valuers_from_pair i k x rest :
  Nat.even i = true →
  Valuers_from i (k :: x :: rest)
  = match as_Valuer x with
    | Some v => (S i, v) :: Valuers_from (S (S i)) rest
    | None => Valuers_from (S (S i)) rest
    end.
Proof.
  intros Hi. simpl. rewrite Nat.odd_succ, Hi.
  unfold Nat.odd. rewrite Hi. simpl.
  by destruct (as_Valuer k), (as_Valuer x).
Qed.

Lemma Valuers_from_one i (x : value World) :
  Nat.even i = true → Valuers_from i [x] = [].
Proof.
  intros Hi. simpl. unfold Nat.odd. rewrite Hi. simpl.
  by destruct (as_Valuer x).
Qed.

Lemma effect_of_prepend {A : Type} pre (e : exec World A) :
  effect_of (exec_prepend pre e) = effect_of e.
Proof. by destruct e. Qed.

(** The world a resolution leaves, and whether it panics, are those of
    invoking the [Valuer]s of the odd slots by ascending index. *)
Lemma bind_pairs_effect kvs :
  ∀ i w, Nat.even i = true →
    effect_of (bind_pairs kvs w)
    = Some (invoke_in_order (Valuers_from i kvs) w).
Proof.
  induction kvs as [|x|k x rest IH] using pairs_ind; intros i w Hi.
  - done.
  - by rewrite Valuers_from_one.
  - rewrite Valuers_from_pair by done. simpl.
    destruct (as_Valuer x) as [v|]; simpl.
    + destruct (v w) as [r w1|p w1]; [|done].
      rewrite effect_of_prepend. by apply IH.
    + rewrite effect_of_prepend. by apply IH.
Qed.

Lemma lookup_cons_sub (x : value World) kvs i j y :
  Nat.odd j = true ∧ i ≤ j ∧ (x :: kvs) !! (j - i) = Some y
  ↔ (j = i ∧ Nat.odd i = true ∧ x = y)
    ∨ (Nat.odd j = true ∧ S i ≤ j ∧ kvs !! (j - S i) = Some y).
Proof.
  split.
  - intros (Hodd & Hle & Hy). destruct (decide (j = i)) as [->|Hne].
    + left. rewrite Nat.sub_diag in Hy. by injection Hy as ->.
    + right. replace (j - i) with (S (j - S i)) in Hy by lia.
      split_and!; [done|lia|done].
  - intros [(-> & Hodd & ->)|(Hodd & Hle & Hy)].
    + by rewrite Nat.sub_diag.
    + replace (j - i) with (S (j - S i)) by lia.
      split_and!; [done|lia|done].
Qed.

(** [Valuers_from] lists the odd slots that hold a [Valuer], all of them
    and nothing else. *)
Lemma Valuers_from_elem kvs :
  ∀ i j v,
    (j, v) ∈ Valuers_from i kvs
    ↔ Nat.odd j = true ∧ i ≤ j ∧ kvs !! (j - i) = Some (VValuer v).
Proof.
  induction kvs as [|x kvs IH]; intros i j v.
  - split; [by intros ?%elem_of_nil|by intros (_ & _ & ?)].
  - rewrite lookup_cons_sub. simpl.
    destruct (as_Valuer x) as [v0|] eqn:Hx.
    + apply as_Valuer_Some in Hx as ->.
      destruct (Nat.odd i) eqn:Hodd.
      * rewrite elem_of_cons, IH. split.
        -- intros [[= -> ->]|?]; [by left|by right].
        -- intros [(-> & _ & [= ->])|?]; [by left|by right].
      * rewrite IH. split; [by right|].
        intros [(-> & Hi & _)|?]; [congruence|done].
    + rewrite IH. split; [by right|].
      intros [(_ & _ & ->)|?]; [done|done].
Qed.

(** ... and lists them by ascending index. *)
Lemma Valuers_from_sorted kvs :
  ∀ i, StronglySorted (λ a b, a.1 < b.1) (Valuers_from i kvs).
Proof.
  induction kvs as [|x kvs IH]; intros i; simpl; [constructor|].
  destruct (as_Valuer x) as [v0|]; [|apply IH].
  destruct (Nat.odd i); [|apply IH].
  constructor; [apply IH|].
  apply Forall_forall. intros [j v] (_ & Hle & _)%Valuers_from_elem.
  simpl. lia.
Qed.

(** C4. The world [bindValues] leaves, and the panic it ends in if any,
    are those of invoking one after the other, each in the world the one
    before left, the [Valuer]s listed by [odd_slot_Valuers]; that list
    holds the [Valuer]s of the odd slots, all of them and nothing else, by
    strictly ascending index.  In [[k0, f0, k1, v1, k2, f1]] with [v1] not
    a [Valuer], [f1] is invoked in the world [f0] left, and the keys and
    [v1] stay. *)
Theorem bindValues_ascending_order :
  (∀ keyvals w,
     effect_of (bindValues keyvals w)
     = Some (invoke_in_order (odd_slot_Valuers keyvals) w))
  ∧ (∀ keyvals i v,
       (i, v) ∈ odd_slot_Valuers keyvals
       ↔ Nat.odd i = true ∧ keyvals !! i = Some (VValuer v))
  ∧ (∀ keyvals,
       StronglySorted (λ a b, a.1 < b.1) (odd_slot_Valuers keyvals))
  ∧ (∀ w k0 f0 k1 v1 k2 f1 r0 w1 r1 w2,
       as_Valuer v1 = None → f0 w = Ret r0 w1 → f1 w1 = Ret r1 w2 →
       bindValues [k0; VValuer f0; k1; v1; k2; VValuer f1] w
       = Done tt [k0; r0; k1; v1; k2; r1] w2).
Proof.
  split_and!.
  - intros keyvals w. rewrite bindValues_pairs. by apply bind_pairs_effect.
  - intros keyvals i v. unfold odd_slot_Valuers.
    rewrite Valuers_from_elem, Nat.sub_0_r. split.
    + by intros (? & _ & ?).
    + intros [? ?]. split_and!; [done|lia|done].
  - intros keyvals. apply Valuers_from_sorted.
  - intros w k0 f0 k1 v1 k2 f1 r0 w1 r1 w2 Hv1 Hf0 Hf1.
    rewrite bindValues_pairs. simpl.
    rewrite Hf0. simpl. rewrite Hv1. simpl. by rewrite Hf1.
Qed.

(** *** A [Valuer] that panics *)

Lemma bind_pairs_panic_at kvs :
  ∀ i w v pre wi p w',
    Nat.odd i = true → kvs !! i = Some (VValuer v) →
    bind_pairs (take i kvs) w = Done tt pre wi → v wi = Panic p w' →
    bind_pairs kvs w = Panicked p (pre ++ drop i kvs) w'.
Proof.
  induction kvs as [|x|k x rest IH] using pairs_ind;
    intros i w v pre wi p w' Hi Hv Hpre Hpanic.
  - done.
  - by destruct i as [|[|i]].
  - destruct i as [|[|i]]; [done| |].
    + injection Hv as ->. injection Hpre as <- <-.
      simpl. by rewrite Hpanic.
    + change (take (S (S i)) (k :: x :: rest)) with (k :: x :: take i rest)
        in Hpre.
      apply bind_pairs_cons_Done in Hpre
        as (y & w1 & pre' & -> & Hy & Hpre').
      rewrite (bind_pairs_resolves _ _ _ _ _ _ Hy).
      by rewrite (IH i w1 v pre' wi p w' Hi Hv Hpre' Hpanic).
Qed.

(** A panic of the resolution is the panic of a [Valuer] of an odd slot,
    invoked after the slots before it were resolved. *)
Lemma bind_pairs_Panicked kvs :
  ∀ w p kvs' w', bind_pairs kvs w = Panicked p kvs' w' →
    ∃ i v pre wi,
      Nat.odd i = true ∧ kvs !! i = Some (VValuer v)
      ∧ bind_pairs (take i kvs) w = Done tt pre wi
      ∧ v wi = Panic p w' ∧ kvs' = pre ++ drop i kvs.
Proof.
  induction kvs as [|x|k x rest IH] using pairs_ind;
    intros w p kvs' w' Hrun; try done.
  apply bind_pairs_cons_Panicked in Hrun
    as [(v & Hx & Hv & ->)|(y & w1 & rest' & -> & Hy & Hrest)].
  - apply as_Valuer_Some in Hx as ->. by exists 1, v, [k], w.
  - destruct (IH _ _ _ _ Hrest) as (i & v & pre & wi & Hi & Hv & Hpre & Hp & ->).
    exists (S (S i)), v, (k :: y :: pre), wi. split_and!; try done.
    change (take (S (S i)) (k :: x :: rest)) with (k :: x :: take i rest).
    by rewrite (bind_pairs_resolves _ _ _ _ _ _ Hy), Hpre.
Qed.

Lemma bindValues_Panicked keyvals w p kv' w' :
  bindValues keyvals w = Panicked p kv' w' →
  ∃ i v pre wi,
    Nat.odd i = true ∧ keyvals !! i = Some (VValuer v)
    ∧ bindValues (take i keyvals) w = Done tt pre wi
    ∧ v wi = Panic p w' ∧ kv' = pre ++ drop i keyvals.
Proof.
  rewrite bindValues_pairs. intros Hrun.
  destruct (bind_pairs_Panicked _ _ _ _ _ Hrun)
    as (i & v & pre & wi & ?). exists i, v, pre, wi.
  by rewrite bindValues_pairs.
Qed.

(** C5. When the slots before the odd slot [i] resolve and the [Valuer]
    of slot [i], invoked in the world they left, panics with [p], then
    [bindValues] panics with [p] itself; the sequence keeps its length,
    the slots from [i] on are what they were, the slots before [i] are as
    resolved, and each of them that held a [Valuer] holds what it
    returned. *)
Theorem bindValues_panic keyvals w i v pre wi p w' :
  Nat.odd i = true → keyvals !! i = Some (VValuer v) →
  bindValues (take i keyvals) w = Done tt pre wi →
  v wi = Panic p w' →
  ∃ kv',
    bindValues keyvals w = Panicked p kv' w'
    ∧ length kv' = length keyvals
    ∧ (∀ j, i ≤ j → kv' !! j = keyvals !! j)
    ∧ (∀ j, j < i → kv' !! j = pre !! j)
    ∧ (∀ j u, j < i → Nat.odd j = true →
         keyvals !! j = Some (VValuer u) →
         ∃ prej wj r wj',
           bindValues (take j keyvals) w = Done tt prej wj
           ∧ u wj = Ret r wj' ∧ kv' !! j = Some r).
Proof.
  intros Hi Hv Hpre Hpanic. rewrite bindValues_pairs in Hpre.
  exists (pre ++ drop i keyvals).
  destruct (bind_pairs_Done _ _ _ _ Hpre) as (Hlen & _ & _ & Hbound).
  assert (i < length keyvals) as Hlt by by eapply lookup_lt_Some.
  rewrite length_take in Hlen.
  split_and!.
  - rewrite bindValues_pairs. by eapply bind_pairs_panic_at.
  - rewrite length_app, length_drop. lia.
  - intros j Hj. rewrite lookup_app_r by lia.
    rewrite lookup_drop. f_equal. lia.
  - intros j Hj. by rewrite lookup_app_l by lia.
  - intros j u Hj Hodd Hu.
    destruct (Hbound j u Hodd) as (prej & wj & r & wj' & Hprej & Hr & Hslot).
    { by rewrite lookup_take_lt. }
    exists prej, wj, r, wj'. split_and!; [|done|].
    + rewrite bindValues_pairs. rewrite take_take in Hprej.
      by replace (j `min` i) with j in Hprej by lia.
    + by rewrite lookup_app_l by lia.
Qed.

End Loops.

(** *** Panics, the gate, and sequences put together *)

Section Composition.

Context {World : Type}.

Implicit Types (keyvals kvs pre suf rest : list (value World)) (w : World).

(** X1. [bindValues] does not panic by itself: when it panics with [p],
    some odd slot [i] within the sequence held a [Valuer], the slots
    before [i] had resolved, and that [Valuer], invoked in the world they
    left, panicked with [p]; the sequence is then the resolved slots
    followed by the slots from [i] on as they were. *)
Theorem bindValues_panic_origin keyvals w p kv' w' :
  bindValues keyvals w = Panicked p kv' w' →
  ∃ i v pre wi,
    Nat.odd i = true ∧ i < length keyvals
    ∧ keyvals !! i = Some (VValuer v)
    ∧ bindValues (take i keyvals) w = Done tt pre wi
    ∧ v wi = Panic p w'
    ∧ length pre = i
    ∧ kv' = pre ++ drop i keyvals.
Proof.
  intros Hrun.
  destruct (bindValues_Panicked _ _ _ _ _ Hrun)
    as (i & v & pre & wi & Hodd & Hv & Hpre & Hpanic & ->).
  assert (i < length keyvals) as Hlt by by eapply lookup_lt_Some.
  exists i, v, pre, wi. split_and!; try done.
  rewrite bindValues_pairs in Hpre.
  destruct (bind_pairs_Done _ _ _ _ Hpre) as (Hlen & _).
  rewrite Hlen, length_take. lia.
Qed.

Lemma final_keyvals_prepend {A : Type} pre (e : exec World A) :
  final_keyvals (exec_prepend pre e) = (pre ++.) <$> final_keyvals e.
Proof. by destruct e. Qed.

(** What every resolution keeps, completed or not. *)
Lemma bind_pairs_frame kvs :
  ∀ w, ∃ kvs',
    final_keyvals (bind_pairs kvs w) = Some kvs'
    ∧ length kvs' = length kvs
    ∧ (∀ i, Nat.even i = true → kvs' !! i = kvs !! i)
    ∧ (∀ i, Nat.odd i = true → holds_Valuer kvs i = false →
         kvs' !! i = kvs !! i).
Proof.
  induction kvs as [|x|k x rest IH] using pairs_ind; intros w;
    [by eexists..|].
  assert (∀ y w1,
    (as_Valuer x = None → y = x) →
    ∃ kvs',
      final_keyvals (exec_prepend [k; y] (bind_pairs rest w1)) = Some kvs'
      ∧ length kvs' = length (k :: x :: rest)
      ∧ (∀ i, Nat.even i = true → kvs' !! i = (k :: x :: rest) !! i)
      ∧ (∀ i, Nat.odd i = true → holds_Valuer (k :: x :: rest) i = false →
           kvs' !! i = (k :: x :: rest) !! i)) as Hstep.
  { intros y w1 Hy.
    destruct (IH w1) as (rest' & Hrest & Hlen & Heven & Hstatic).
    exists (k :: y :: rest'). rewrite final_keyvals_prepend, Hrest.
    split_and!; [done|by simpl; rewrite Hlen| |].
    - intros [|[|i]] Hi; try done. by apply Heven.
    - intros [|[|i]] Hi Hno; try done.
      + simpl. f_equal. apply Hy.
        by apply (holds_Valuer_false (k :: x :: rest) 1). 
      + by apply Hstatic. }
  simpl. destruct (as_Valuer x) as [v|] eqn:Hx.
  - destruct (v w) as [r w1|p w1].
    + by apply Hstep.
    + by exists (k :: x :: rest).
  - by apply Hstep.
Qed.

(** X5. Whether [bindValues] completes or panics, the sequence it leaves
    has the length it had, every even slot (every key) is what it was, and
    so is every odd slot that held no [Valuer]. *)
Theorem bindValues_frame keyvals w :
  ∃ kv',
    final_keyvals (bindValues keyvals w) = Some kv'
    ∧ length kv' = length keyvals
    ∧ (∀ i, Nat.even i = true → kv' !! i = keyvals !! i)
    ∧ (∀ i, Nat.odd i = true → holds_Valuer keyvals i = false →
         kv' !! i = keyvals !! i).
Proof. rewrite bindValues_pairs. apply bind_pairs_frame. Qed.

(** The first odd slot that holds a [Valuer], when there is one. *)
Lemma contains_pairs_first kvs :
  contains_pairs kvs = true →
  ∃ i v,
    Nat.odd i = true ∧ kvs !! i = Some (VValuer v)
    ∧ (∀ j, j < i → Nat.odd j = true → holds_Valuer kvs j = false).
Proof.
  induction kvs as [|x|k x rest IH] using pairs_ind; try done.
  simpl. destruct (as_Valuer x) as [v|] eqn:Hx.
  - intros _. apply as_Valuer_Some in Hx as ->.
    exists 1, v. split_and!; try done. intros [|[|j]] Hj Hodd; done || lia.
  - intros (i & v & Hodd & Hv & Hfirst)%IH.
    exists (S (S i)), v. split_and!; try done.
    intros [|[|j]] Hj Hoddj; try done.
    + by apply (holds_Valuer_None (k :: x :: rest) 1 x).
    + apply (Hfirst j); [lia|done].
Qed.

Lemma holds_Valuer_take kvs i j :
  holds_Valuer (take i kvs) j
  = if decide (j < i) then holds_Valuer kvs j else false.
Proof.
  unfold holds_Valuer. case_decide.
  - by rewrite lookup_take_lt.
  - by rewrite lookup_take_ge by lia.
Qed.

(** X2. [containsValuer] is a sound gate for [bindValues].  When it
    answers [false], [bindValues] would change nothing, in whatever world
    it is called.  When it answers [true], there is a first odd slot that
    holds a [Valuer]; [bindValues] leaves the slots before it as they are
    and so invokes that [Valuer] in the world it was called in. *)
Theorem containsValuer_gate keyvals w :
  ∃ b,
    containsValuer keyvals w = Done b keyvals w
    ∧ (b = false → ∀ w', bindValues keyvals w' = Done tt keyvals w')
    ∧ (b = true →
       ∃ i v,
         Nat.odd i = true ∧ keyvals !! i = Some (VValuer v)
         ∧ (∀ w', bindValues (take i keyvals) w'
                  = Done tt (take i keyvals) w')
         ∧ (∀ w' p w1, v w' = Panic p w1 →
              bindValues keyvals w' = Panicked p keyvals w1)).
Proof.
  exists (contains_pairs keyvals). split_and!.
  - apply containsValuer_pairs.
  - intros Hno w'. rewrite bindValues_pairs. apply bind_pairs_static.
    intros i Hodd. apply not_true_is_false. intros Hi.
    assert (contains_pairs keyvals = true) as Hyes
      by (apply contains_pairs_true; eauto).
    congruence.
  - intros (i & v & Hodd & Hv & Hfirst)%contains_pairs_first.
    assert (∀ w', bind_pairs (take i keyvals) w'
                  = Done tt (take i keyvals) w') as Hprefix.
    { intros w'. apply bind_pairs_static. intros j Hj.
      rewrite holds_Valuer_take. case_decide; [by apply Hfirst|done]. }
    exists i, v. split_and!; try done.
    + intros w'. by rewrite bindValues_pairs.
    + intros w' p w1 Hpanic. rewrite bindValues_pairs.
      rewrite (bind_pairs_panic_at keyvals i w' v (take i keyvals) w' p w1)
        by done.
      by rewrite take_drop.
Qed.

(** *** Sequences put together *)

Lemma bind_pairs_app pre :
  ∀ suf w, Nat.even (length pre) = true →
    bind_pairs (pre ++ suf) w
    = match bind_pairs pre w with
      | Done _ pre' w1 => exec_prepend pre' (bind_pairs suf w1)
      | Panicked p pre' w1 => Panicked p (pre' ++ suf) w1
      | OutOfFuel => OutOfFuel
      end.
Proof.
  induction pre as [|x|k x rest IH] using pairs_ind; intros suf w Hlen.
  - simpl. by rewrite exec_prepend_nil.
  - done.
  - change ((k :: x :: rest) ++ suf) with (k :: x :: (rest ++ suf)).
    cbn [bind_pairs]. destruct (as_Valuer x) as [v|].
    + destruct (v w) as [r w1|p w1]; [|done].
      rewrite IH by done.
      destruct (bind_pairs rest w1); simpl; try done.
      by rewrite <- exec_prepend_app.
    + rewrite IH by done.
      destruct (bind_pairs rest w); simpl; try done.
      by rewrite <- exec_prepend_app.
Qed.

(** X3. Binding a sequence made of two, the first of even length, is
    binding the first and then, in the world that left, the second: the
    slots of the second are looked at only when the first completed, and a
    panic in the first leaves the second as it was. *)
Theorem bindValues_app pre suf w :
  Nat.even (length pre) = true →
  bindValues (pre ++ suf) w
  = match bindValues pre w with
    | Done _ pre' w1 => exec_prepend pre' (bindValues suf w1)
    | Panicked p pre' w1 => Panicked p (pre' ++ suf) w1
    | OutOfFuel => OutOfFuel
    end.
Proof.
  intros Hlen. rewrite !bindValues_pairs, (bind_pairs_app pre suf w Hlen).
  destruct (bind_pairs pre w); try done. by rewrite bindValues_pairs.
Qed.

Lemma contains_pairs_app pre :
  ∀ suf, Nat.even (length pre) = true →
    contains_pairs (pre ++ suf) = contains_pairs pre || contains_pairs suf.
Proof.
  induction pre as [|x|k x rest IH] using pairs_ind; intros suf Hlen;
    try done.
  change ((k :: x :: rest) ++ suf) with (k :: x :: (rest ++ suf)).
  cbn [contains_pairs]. destruct (as_Valuer x); [done|]. by apply IH.
Qed.

(** X4. A sequence made of two, the first of even length, contains a
    [Valuer] exactly when one of the two does. *)
Theorem containsValuer_app pre suf w :
  Nat.even (length pre) = true →
  ∃ b1 b2,
    containsValuer pre w = Done b1 pre w
    ∧ containsValuer suf w = Done b2 suf w
    ∧ containsValuer (pre ++ suf) w = Done (b1 || b2) (pre ++ suf) w.
Proof.
  intros Hlen. exists (contains_pairs pre), (contains_pairs suf).
  rewrite !containsValuer_pairs. split_and!; try done.
  by rewrite contains_pairs_app.
Qed.

(** *** Keys are not looked at *)

Lemma final_keyvals_prepend_Some {A : Type} pre (e : exec World A) kvs' :
  final_keyvals (exec_prepend pre e) = Some kvs' →
  ∃ l, final_keyvals e = Some l ∧ kvs' = pre ++ l.
Proof.
  rewrite final_keyvals_prepend.
  destruct (final_keyvals e) as [l|]; [|done]. intros [= <-]. eauto.
Qed.

Lemma bind_pairs_keys kvs1 :
  ∀ kvs2 w,
    (∀ i, Nat.odd i = true → kvs1 !! i = kvs2 !! i) →
    effect_of (bind_pairs kvs1 w) = effect_of (bind_pairs kvs2 w)
    ∧ (∀ kvs1' kvs2',
         final_keyvals (bind_pairs kvs1 w) = Some kvs1' →
         final_keyvals (bind_pairs kvs2 w) = Some kvs2' →
         ∀ i, Nat.odd i = true → kvs1' !! i = kvs2' !! i).
Proof.
  induction kvs1 as [|x|k x rest IH] using pairs_ind;
    intros [|k2 [|x2 rest2]] w Hsame;
    try (by specialize (Hsame 1 eq_refl));
    try (split; [done|]; intros ? ? [= <-] [= <-] [|[|i]]; done).
  pose proof (Hsame 1 eq_refl) as Hx. injection Hx as <-.
  destruct (IH rest2 w) as [Heff Hslots].
  { intros i Hi. by apply (Hsame (S (S i))). }
  assert (∀ y w1,
    effect_of (exec_prepend [k; y] (bind_pairs rest w1))
    = effect_of (exec_prepend [k2; y] (bind_pairs rest2 w1))
    ∧ (∀ kvs1' kvs2',
         final_keyvals (exec_prepend [k; y] (bind_pairs rest w1))
         = Some kvs1' →
         final_keyvals (exec_prepend [k2; y] (bind_pairs rest2 w1))
         = Some kvs2' →
         ∀ i, Nat.odd i = true → kvs1' !! i = kvs2' !! i)) as Hstep.
  { intros y w1. destruct (IH rest2 w1) as [Heff1 Hslots1].
    { intros i Hi. by apply (Hsame (S (S i))). }
    rewrite !effect_of_prepend. split; [done|].
    intros kvs1' kvs2' (l1 & Hl1 & ->)%final_keyvals_prepend_Some
      (l2 & Hl2 & ->)%final_keyvals_prepend_Some [|[|i]] Hi; try done.
    by apply (Hslots1 l1 l2). }
  cbn [bind_pairs]. destruct (as_Valuer x) as [v|]; [|by apply Hstep].
  destruct (v w) as [r w1|p w1]; [by apply Hstep|].
  split; [done|]. intros ? ? [= <-] [= <-] i Hi. by apply Hsame.
Qed.

(** X6. [bindValues] does not look at the even slots: two sequences with
    the same odd slots are bound with the same effect on the world, the
    same panic if any, and the same odd slots afterwards, whatever their
    keys are, a [Valuer] in a key slot included. *)
Theorem bindValues_ignores_keys keyvals1 keyvals2 w :
  (∀ i, Nat.odd i = true → keyvals1 !! i = keyvals2 !! i) →
  effect_of (bindValues keyvals1 w) = effect_of (bindValues keyvals2 w)
  ∧ (∀ kv1' kv2',
       final_keyvals (bindValues keyvals1 w) = Some kv1' →
       final_keyvals (bindValues keyvals2 w) = Some kv2' →
       ∀ i, Nat.odd i = true → kv1' !! i = kv2' !! i).
Proof. rewrite !bindValues_pairs. apply bind_pairs_keys. Qed.

(** *** The [Valuer]s of this package *)

Lemma made_by_package_returns (v : Valuer World) w r w' :
  made_by_package v → v w = Ret r w' → as_Valuer r = None.
Proof.
  intros [t|t layout|stack_Caller depth].
  - unfold Timestamp. destruct (t w); by intros [= <- _].
  - unfold TimestampFormat. destruct (t w); by intros [= <- _].
  - unfold Caller. by intros [= <- _].
Qed.

(** X7. [Timestamp], [TimestampFormat] and [Caller] make [Valuer]s that
    return a time, a [TimeFormat] or a call, never a [Valuer].  So when
    every [Valuer] in an odd slot was made by one of them and [bindValues]
    completes, the sequence it leaves holds no [Valuer] in an odd slot:
    [containsValuer] answers [false] on it and binding it again changes
    nothing. *)
Theorem bindValues_made_by_package keyvals w kv' w' :
  (∀ i v, Nat.odd i = true → keyvals !! i = Some (VValuer v) →
     made_by_package v) →
  bindValues keyvals w = Done tt kv' w' →
  (∀ w2, containsValuer kv' w2 = Done false kv' w2)
  ∧ (∀ w2, bindValues kv' w2 = Done tt kv' w2).
Proof.
  intros Hmade Hrun. rewrite bindValues_pairs in Hrun.
  destruct (bind_pairs_Done _ _ _ _ Hrun) as (_ & _ & Hstatic & Hbound).
  assert (∀ i, Nat.odd i = true → holds_Valuer kv' i = false) as Hnone.
  { intros i Hi. destruct (holds_Valuer keyvals i) eqn:Hheld.
    - apply holds_Valuer_true in Hheld as [v Hv].
      destruct (Hbound i v Hi Hv) as (pre & wi & r & wi' & _ & Hr & Hslot).
      apply (holds_Valuer_None _ _ r Hslot).
      by apply (made_by_package_returns v wi r wi'); [apply (Hmade i)|].
    - unfold holds_Valuer. rewrite (Hstatic i Hi Hheld). exact Hheld. }
  split; intros w2.
  - rewrite containsValuer_pairs. f_equal. apply not_true_is_false.
    intros (i & Hodd & Hi)%contains_pairs_true.
    by rewrite (Hnone i Hodd) in Hi.
  - rewrite bindValues_pairs. by apply bind_pairs_static.
Qed.

(** X10. What the three constructors leave in a slot.  When [bindValues]
    completes, an odd slot that held [Timestamp t] holds the instant [t]
    returned, one that held [TimestampFormat t layout] holds the
    [TimeFormat] of that instant and of [layout], and one that held
    [Caller stack_Caller depth] holds the frame [stack_Caller] finds
    [depth] calls up; the time source and the stack are read when the slot
    is reached, in the world the slots before it left. *)
Theorem bindValues_package_slot keyvals w kv' w' i :
  Nat.odd i = true →
  bindValues keyvals w = Done tt kv' w' →
  (∀ t, keyvals !! i = Some (VValuer (Timestamp t)) →
     ∃ pre wi x wi',
       bindValues (take i keyvals) w = Done tt pre wi
       ∧ t wi = Ret x wi' ∧ kv' !! i = Some (VTime x))
  ∧ (∀ t layout,
       keyvals !! i = Some (VValuer (TimestampFormat t layout)) →
       ∃ pre wi x wi',
         bindValues (take i keyvals) w = Done tt pre wi
         ∧ t wi = Ret x wi'
         ∧ kv' !! i = Some (VTimeFormat {| Time := x; Layout := layout |}))
  ∧ (∀ stack_Caller depth,
       keyvals !! i = Some (VValuer (Caller stack_Caller depth)) →
       ∃ pre wi,
         bindValues (take i keyvals) w = Done tt pre wi
         ∧ kv' !! i = Some (VCall (stack_Caller depth wi))).
Proof.
  intros Hodd Hrun. rewrite bindValues_pairs in Hrun.
  destruct (bind_pairs_Done _ _ _ _ Hrun) as (_ & _ & _ & Hbound).
  split_and!.
  - intros t Hslot.
    destruct (Hbound i _ Hodd Hslot) as (pre & wi & r & wi' & Hpre & Hr & Hi).
    unfold Timestamp in Hr. destruct (t wi) as [x w1|] eqn:Ht; [|done].
    injection Hr as <- <-. exists pre, wi, x, w1.
    by rewrite bindValues_pairs.
  - intros t layout Hslot.
    destruct (Hbound i _ Hodd Hslot) as (pre & wi & r & wi' & Hpre & Hr & Hi).
    unfold TimestampFormat in Hr.
    destruct (t wi) as [x w1|] eqn:Ht; [|done].
    injection Hr as <- <-. exists pre, wi, x, w1.
    by rewrite bindValues_pairs.
  - intros stack_Caller depth Hslot.
    destruct (Hbound i _ Hodd Hslot) as (pre & wi & r & wi' & Hpre & Hr & Hi).
    unfold Caller in Hr. injection Hr as <- <-. exists pre, wi.
    by rewrite bindValues_pairs.
Qed.

End Composition.

(** *** Rendering a [TimeFormat] *)

Section RenderingFacts.

Variable time_Format : time_Time → string → string.
Variable time_AppendFormat : time_Time → list byte → string → list byte.

(** Go's standard library documents [AppendFormat] as "like Format but
    appends the textual representation to b": [Format] is [AppendFormat]
    on an empty buffer, as a string. *)
Hypothesis time_Format_AppendFormat :
  ∀ t layout,
    time_Format t layout = string_of_list_byte (time_AppendFormat t [] layout).

(** C6. The bytes [MarshalText] returns are the bytes of the string
    [String] returns, and that string depends on the instant and the
    layout alone: two [TimeFormat]s with the same instant and the same
    layout render the same. *)
Theorem TimeFormat_MarshalText_String tf :
  (TimeFormat_MarshalText time_AppendFormat tf).1
  = list_byte_of_string (TimeFormat_String time_Format tf)
  ∧ (∀ tf', Time tf' = Time tf → Layout tf' = Layout tf →
       TimeFormat_String time_Format tf' = TimeFormat_String time_Format tf).
Proof using time_Format_AppendFormat.
  split.
  - unfold TimeFormat_MarshalText, TimeFormat_String, make_bytes. simpl.
    by rewrite time_Format_AppendFormat, list_byte_of_string_of_list_byte.
  - intros tf' Htime Hlayout. unfold TimeFormat_String.
    by rewrite Htime, Hlayout.
Qed.

(** C10. The error [MarshalText] returns is [nil]. *)
Theorem TimeFormat_MarshalText_no_error tf :
  (TimeFormat_MarshalText time_AppendFormat tf).2 = None.
Proof. unfold TimeFormat_MarshalText. simpl. reflexivity. Qed.

End RenderingFacts.

(** *** Examples *)

Example sample_render_clock :
  sample_Format sample_instant "at 15:04:05!" = "at 01:02:03!".
Proof. reflexivity. Qed.

Lemma sample_Format_AppendFormat t layout :
  sample_Format t layout
  = string_of_list_byte (sample_AppendFormat t [] layout).
Proof.
  unfold sample_Format, sample_AppendFormat. simpl.
  by rewrite string_of_list_byte_of_string.
Defined.

Lemma TimeFormat_MarshalText_String_witness :
  (TimeFormat_MarshalText sample_AppendFormat
     {| Time := sample_instant; Layout := "15:04:05" |}).1
  = list_byte_of_string
      (TimeFormat_String sample_Format
         {| Time := sample_instant; Layout := "15:04:05" |})
  ∧ (∀ tf',
       Time tf' = sample_instant → Layout tf' = "15:04:05" →
       TimeFormat_String sample_Format tf'
       = TimeFormat_String sample_Format
           {| Time := sample_instant; Layout := "15:04:05" |}).
Proof.
  apply (TimeFormat_MarshalText_String sample_Format sample_AppendFormat
           sample_Format_AppendFormat
           {| Time := sample_instant; Layout := "15:04:05" |}).
Defined.

Example MarshalText_sample :
  TimeFormat_MarshalText sample_AppendFormat
    {| Time := sample_instant; Layout := "15:04:05" |}
  = (list_byte_of_string "01:02:03", None).
Proof. reflexivity. Qed.

(** Two timestamps in one sequence: the clock is read twice, left to
    right, and a plain function in a value slot is not a [Valuer]. *)
Example bindValues_two_timestamps :
  bindValues
    [VString "ts"; VValuer (TimestampFormat ticking "15:04:05");
     VString "fn"; VFunc (says "plain" VNil);
     VString "t2"; VValuer (Timestamp ticking)]
    sample_start
  = Done tt
      [VString "ts";
       VTimeFormat {| Time := {| unixNano := 1000; zoneOffset := 0 |};
                      Layout := "15:04:05" |};
       VString "fn"; VFunc (says "plain" VNil);
       VString "t2"; VTime {| unixNano := 1001; zoneOffset := 0 |}]
      {| clock := 1002; written := [] |}.
Proof. reflexivity. Qed.

(** An odd number of slots: the last key has no value slot. *)
Example bindValues_trailing_key :
  bindValues [VString "a"; VValuer (says "x" (VInt 1)); VValuer (says "y" VNil)]
    sample_start
  = Done tt [VString "a"; VInt 1; VValuer (says "y" VNil)]
      {| clock := 1000; written := ["x"] |}.
Proof. reflexivity. Qed.

(** A [Valuer] in a key slot is not looked at. *)
Example containsValuer_key_slot :
  containsValuer [VValuer (fails "key"); VInt 0] sample_start
  = Done false [VValuer (fails "key"); VInt 0] sample_start.
Proof. reflexivity. Qed.

(** Side effects in the order of the slots. *)
Example bindValues_left_to_right :
  bindValues
    [VString "k0"; VValuer (says "f0" (VInt 0));
     VString "k1"; VBool true;
     VString "k2"; VValuer (says "f1" (VInt 1))]
    sample_start
  = Done tt
      [VString "k0"; VInt 0; VString "k1"; VBool true; VString "k2"; VInt 1]
      {| clock := 1000; written := ["f0"; "f1"] |}.
Proof. reflexivity. Qed.

(** The counterexample to C3 as it is stated: the [Valuer] of slot 1
    returns a [Valuer]; after the first call slot 1 holds that [Valuer],
    and the second call invokes it: it changes slot 1 and the world. *)
Lemma bindValues_nested_Valuer :
  bindValues [VString "k"; VValuer nested] sample_start
  = Done tt [VString "k"; VValuer (says "inner" (VInt 1))] sample_start
  ∧ holds_Valuer [VString "k"; VValuer (says "inner" (VInt 1))] 1 = true
  ∧ bindValues [VString "k"; VValuer (says "inner" (VInt 1))] sample_start
    = Done tt [VString "k"; VInt 1] {| clock := 1000; written := ["inner"] |}
  ∧ [VString "k"; VInt 1]
    ≠ [VString "k"; VValuer (says "inner" (VInt 1))].
Proof. split_and!; [reflexivity..|discriminate]. Qed.

Lemma bindValues_resolved_witness :
  (∀ i, Nat.odd i = true → holds_Valuer sample_bound i = false)
  ∧ (∀ w2, bindValues sample_bound w2 = Done tt sample_bound w2).
Proof.
  apply (bindValues_resolved sample_keyvals sample_start sample_bound
           {| clock := 1001; written := [] |}).
  - intros [|[|[|[|i]]]] v pre wi r wi' Hodd Hv Hpre Hr; try discriminate.
    injection Hv as <-. injection Hr as <- _. reflexivity.
  - reflexivity.
Defined.

Lemma containsValuer_invokes_nothing_witness :
  ∃ b,
    containsValuer [VString "ts"; VValuer (fails "boom")] sample_start
    = Done b [VString "ts"; VValuer (fails "boom")] sample_start
    ∧ containsValuer [VString "ts"; VValuer (says "fine" (VInt 1)); VNil]
        {| clock := 5; written := ["earlier"] |}
      = Done b [VString "ts"; VValuer (says "fine" (VInt 1)); VNil]
          {| clock := 5; written := ["earlier"] |}.
Proof.
  apply (containsValuer_invokes_nothing
           [VString "ts"; VValuer (fails "boom")]
           [VString "ts"; VValuer (says "fine" (VInt 1)); VNil]).
  intros [|[|[|[|i]]]] _; reflexivity.
Defined.

Lemma bindValues_panic_witness :
  ∃ kv',
    bindValues sample_failing sample_start
    = Panicked (VString "boom") kv'
        {| clock := 1000; written := ["first"; "boom"] |}
    ∧ length kv' = length sample_failing
    ∧ (∀ j, 3 ≤ j → kv' !! j = sample_failing !! j)
    ∧ (∀ j, j < 3 →
         kv' !! j = [VString "ts"; VInt 7; VString "caller"] !! j)
    ∧ (∀ j u, j < 3 → Nat.odd j = true →
         sample_failing !! j = Some (VValuer u) →
         ∃ prej wj r wj',
           bindValues (take j sample_failing) sample_start
           = Done tt prej wj
           ∧ u wj = Ret r wj' ∧ kv' !! j = Some r).
Proof.
  apply (bindValues_panic sample_failing sample_start 3 (fails "boom")
           [VString "ts"; VInt 7; VString "caller"]
           {| clock := 1000; written := ["first"] |}
           (VString "boom")
           {| clock := 1000; written := ["first"; "boom"] |});
    reflexivity.
Defined.

(** The panic leaves the slots before it resolved and the rest as is. *)
Example bindValues_panic_sample :
  bindValues sample_failing sample_start
  = Panicked (VString "boom")
      [VString "ts"; VInt 7;
       VString "caller"; VValuer (fails "boom");
       VString "msg"; VValuer (says "never" VNil)]
      {| clock := 1000; written := ["first"; "boom"] |}.
Proof. reflexivity. Qed.

(** *** Examples for the properties above *)

(** A call stack for examples: the frame [depth] calls up is a line of
    one file. *)
Definition sample_stack (depth : Z) (w : sample_world) : stack_Call :=
  {| callFile := "main.go"; callLine := 10 + depth |}.

(** A sequence with the default timestamp and the default caller. *)
Definition sample_defaults : list (value sample_world) :=
  [VString "ts"; VValuer (DefaultTimestamp sample_world ticking);
   VString "caller"; VValuer (DefaultCaller sample_world sample_stack)].

Definition sample_defaults_bound : list (value sample_world) :=
  [VString "ts";
   VTimeFormat {| Time := {| unixNano := 1000; zoneOffset := 0 |};
                  Layout := time_RFC3339Nano |};
   VString "caller";
   VCall {| callFile := "main.go"; callLine := 13 |}].

Lemma bindValues_panic_origin_witness :
  ∃ i v pre wi,
    Nat.odd i = true ∧ i < length sample_failing
    ∧ sample_failing !! i = Some (VValuer v)
    ∧ bindValues (take i sample_failing) sample_start = Done tt pre wi
    ∧ v wi = Panic (VString "boom")
               {| clock := 1000; written := ["first"; "boom"] |}
    ∧ length pre = i
    ∧ [VString "ts"; VInt 7;
       VString "caller"; VValuer (fails "boom");
       VString "msg"; VValuer (says "never" VNil)]
      = pre ++ drop i sample_failing.
Proof.
  apply (bindValues_panic_origin sample_failing sample_start
           (VString "boom")
           [VString "ts"; VInt 7;
            VString "caller"; VValuer (fails "boom");
            VString "msg"; VValuer (says "never" VNil)]
           {| clock := 1000; written := ["first"; "boom"] |}).
  reflexivity.
Defined.

Lemma bindValues_app_witness :
  bindValues
    ([VString "ts"; VValuer (Timestamp ticking)]
     ++ [VString "msg"; VValuer (says "m" (VString "hi"))])
    sample_start
  = match bindValues [VString "ts"; VValuer (Timestamp ticking)] sample_start
    with
    | Done _ pre' w1 =>
        exec_prepend pre'
          (bindValues [VString "msg"; VValuer (says "m" (VString "hi"))] w1)
    | Panicked p pre' w1 =>
        Panicked p
          (pre' ++ [VString "msg"; VValuer (says "m" (VString "hi"))]) w1
    | OutOfFuel => OutOfFuel
    end.
Proof.
  apply (bindValues_app
           [VString "ts"; VValuer (Timestamp ticking)]
           [VString "msg"; VValuer (says "m" (VString "hi"))]
           sample_start).
  reflexivity.
Defined.

(** After a first part of odd length the slots of the second part change
    sides: its keys are value slots and its values are keys. *)
Example bindValues_app_odd :
  bindValues
    ([VString "lonely"] ++ [VValuer (says "key" VNil); VValuer (says "value" VNil)])
    sample_start
  = Done tt [VString "lonely"; VNil; VValuer (says "value" VNil)]
      {| clock := 1000; written := ["key"] |}.
Proof. reflexivity. Qed.

Lemma containsValuer_app_witness :
  ∃ b1 b2,
    containsValuer [VString "a"; VInt 1] sample_start
    = Done b1 [VString "a"; VInt 1] sample_start
    ∧ containsValuer [VString "ts"; VValuer (Timestamp ticking)] sample_start
      = Done b2 [VString "ts"; VValuer (Timestamp ticking)] sample_start
    ∧ containsValuer
        ([VString "a"; VInt 1] ++ [VString "ts"; VValuer (Timestamp ticking)])
        sample_start
      = Done (b1 || b2)
          ([VString "a"; VInt 1] ++ [VString "ts"; VValuer (Timestamp ticking)])
          sample_start.
Proof.
  apply (containsValuer_app
           [VString "a"; VInt 1]
           [VString "ts"; VValuer (Timestamp ticking)]
           sample_start).
  reflexivity.
Defined.

Lemma bindValues_ignores_keys_witness :
  effect_of
    (bindValues [VValuer (fails "key"); VValuer (says "x" (VInt 1))]
       sample_start)
  = effect_of
      (bindValues
         [VString "k"; VValuer (says "x" (VInt 1)); VString "trailing"]
         sample_start)
  ∧ (∀ kv1' kv2',
       final_keyvals
         (bindValues [VValuer (fails "key"); VValuer (says "x" (VInt 1))]
            sample_start)
       = Some kv1' →
       final_keyvals
         (bindValues
            [VString "k"; VValuer (says "x" (VInt 1)); VString "trailing"]
            sample_start)
       = Some kv2' →
       ∀ i, Nat.odd i = true → kv1' !! i = kv2' !! i).
Proof.
  apply (bindValues_ignores_keys
           [VValuer (fails "key"); VValuer (says "x" (VInt 1))]
           [VString "k"; VValuer (says "x" (VInt 1)); VString "trailing"]
           sample_start).
  intros [|[|[|[|i]]]] Hodd; try discriminate Hodd; reflexivity.
Defined.

Lemma bindValues_made_by_package_witness :
  (∀ w2, containsValuer sample_defaults_bound w2
         = Done false sample_defaults_bound w2)
  ∧ (∀ w2, bindValues sample_defaults_bound w2
           = Done tt sample_defaults_bound w2).
Proof.
  apply (bindValues_made_by_package sample_defaults sample_start
           sample_defaults_bound {| clock := 1001; written := [] |}).
  - intros [|[|[|[|i]]]] v Hodd Hv; try discriminate; injection Hv as <-.
    + exact (made_by_TimestampFormat ticking time_RFC3339Nano).
    + exact (made_by_Caller sample_stack 3).
  - reflexivity.
Defined.

Lemma bindValues_package_slot_witness :
  (∀ t, sample_defaults !! 3 = Some (VValuer (Timestamp t)) →
     ∃ pre wi x wi',
       bindValues (take 3 sample_defaults) sample_start = Done tt pre wi
       ∧ t wi = Ret x wi' ∧ sample_defaults_bound !! 3 = Some (VTime x))
  ∧ (∀ t layout,
       sample_defaults !! 3 = Some (VValuer (TimestampFormat t layout)) →
       ∃ pre wi x wi',
         bindValues (take 3 sample_defaults) sample_start = Done tt pre wi
         ∧ t wi = Ret x wi'
         ∧ sample_defaults_bound !! 3
           = Some (VTimeFormat {| Time := x; Layout := layout |}))
  ∧ (∀ stack_Caller depth,
       sample_defaults !! 3 = Some (VValuer (Caller stack_Caller depth)) →
       ∃ pre wi,
         bindValues (take 3 sample_defaults) sample_start = Done tt pre wi
         ∧ sample_defaults_bound !! 3
           = Some (VCall (stack_Caller depth wi))).
Proof.
  apply (bindValues_package_slot sample_defaults sample_start
           sample_defaults_bound {| clock := 1001; written := [] |} 3);
    reflexivity.
Defined.

End Log.

(** ** Package [inmem] *)

Module Inmem.

(** A Go pointer: [nil], or the address of an allocated struct. *)
Inductive ptr : Type :=
| nil
| ref (l : positive).

#[global] Instance ptr_eq_dec : EqDecision ptr.
Proof. solve_decision. Defined.

Section Repository.

(** Modelled from the spec: package [voyage] is imported by the source and
    is not part of it.  The spec names an identifier type [Number], a record
    type, a sentinel error [ErrUnknown] and "a fixed, hardcoded set of named
    records"; the source reads a field [Number] of each record.  The key
    type is any type Go can use as a map key; what a record holds besides
    its number is [Schedule]. *)
Context {Number : Type} `{Countable Number}.
Variable Schedule : Type.

Record Voyage : Type := { Voyage_Number : Number; Voyage_Schedule : Schedule }.

(** Modelled from the spec: the values of Go's [error] interface, [None]
    for [nil], and the sentinel [voyage.ErrUnknown], which is an error and
    so not [nil]. *)
Variable error_value : Type.
Definition error : Type := option error_value.
Variable errUnknown : error_value.
Definition ErrUnknown : error := Some errUnknown.

(** The records that package [voyage] has allocated, by address, and its
    eight package-level variables, each a [*voyage.Voyage]. *)
Variable heap : gmap positive Voyage.
Variables V100 V300 V400 V0100S V0200T V0300A V0301S V0400S : ptr.

(** Reading through a pointer: [None] is the panic of a nil dereference
    (an address with nothing behind it does not occur in Go). *)
Definition deref (p : ptr) : option Voyage :=
  match p with
  | nil => None
  | ref l => heap !! l
  end.

(** [type voyageRepository struct { voyages map[voyage.Number]*voyage.Voyage }] *)
Record voyageRepository : Type := { voyages : gmap Number ptr }.

(** [func (r *voyageRepository) Find(voyageNumber voyage.Number)], which
    returns a [*voyage.Voyage] and an [error]. *)
Definition Find (r : voyageRepository) (voyageNumber : Number) : ptr * error :=
  match voyages r !! voyageNumber with
  | Some v => (v, None)
  | None => (nil, ErrUnknown)
  end.

(** One line [r.voyages[p.Number] = p] of the constructor. *)
Definition store (r : voyageRepository) (p : ptr) : option voyageRepository :=
  v ← deref p;
  Some {| voyages := <[Voyage_Number v := p]> (voyages r) |}.

(** [func NewVoyageRepository() voyage.Repository]; [None] when one of the
    eight variables is [nil] and reading its [Number] panics. *)
Definition NewVoyageRepository : option voyageRepository :=
  let r := {| voyages := ∅ |} in
  r ← store r V100;
  r ← store r V300;
  r ← store r V400;
  r ← store r V0100S;
  r ← store r V0200T;
  r ← store r V0300A;
  r ← store r V0301S;
  r ← store r V0400S;
  Some r.

(** The eight variables in the order the constructor stores them. *)
Definition preloaded : list ptr :=
  [V100; V300; V400; V0100S; V0200T; V0300A; V0301S; V0400S].


(** The constructor's lines as a recursion over the pointers they store;
    not in the source, and equal to the constructor on [preloaded]. *)
Fixpoint store_all (ps : list ptr) (r : voyageRepository)
  : option voyageRepository :=
  match ps with
  | [] => Some r
  | p :: ps' => r' ← store r p; store_all ps' r'
  end.

(** *** The constructor *)

Lemma NewVoyageRepository_store_all :
  NewVoyageRepository = store_all preloaded {| voyages := ∅ |}.
Proof. reflexivity. Qed.

Lemma store_Some r p r' :
  store r p = Some r' ↔
  ∃ v, deref p = Some v
       ∧ r' = {| voyages := <[Voyage_Number v := p]> (voyages r) |}.
Proof.
  unfold store. destruct (deref p) as [v|]; simpl.
  - split; [intros [= <-]; eauto|by intros (? & [= <-] & ->)].
  - split; [done|by intros (? & ? & _)].
Qed.

Lemma deref_not_nil p v : deref p = Some v → p ≠ nil.
Proof. by intros Hp ->. Qed.

(** The constructor completes when every pointer it reads has a record
    behind it. *)
Lemma store_all_Some ps :
  ∀ r, (∀ p, p ∈ ps → is_Some (deref p)) → is_Some (store_all ps r).
Proof.
  induction ps as [|p ps IH]; intros r Hps; [by eexists|].
  destruct (Hps p) as [v Hv]; [by left|].
  simpl. unfold store at 1. rewrite Hv. simpl.
  apply IH. intros p' Hp'. apply Hps. by right.
Qed.

(** ... and only then. *)
Lemma store_all_deref ps :
  ∀ r r', store_all ps r = Some r' → ∀ p, p ∈ ps → is_Some (deref p).
Proof.
  induction ps as [|p ps IH]; intros r r' Hrun q Hq.
  - by apply elem_of_nil in Hq.
  - simpl in Hrun. destruct (store r p) as [r1|] eqn:Hr1; [|done].
    apply elem_of_cons in Hq as [->|Hq].
    + apply store_Some in Hr1 as (v & -> & _). by eexists.
    + by apply (IH r1 r').
Qed.

(** What the map holds once the pointers of [ps] are stored: under each
    number, what it held before or a pointer of [ps] to a record with that
    number; and something under the number of every record of [ps]. *)
Lemma store_all_lookup ps :
  ∀ r r' n, store_all ps r = Some r' →
    (∀ p, voyages r' !! n = Some p →
       voyages r !! n = Some p
       ∨ (p ∈ ps ∧ ∃ v, deref p = Some v ∧ Voyage_Number v = n))
    ∧ (voyages r' !! n = None →
       voyages r !! n = None
       ∧ ∀ p v, p ∈ ps → deref p = Some v → Voyage_Number v ≠ n).
Proof.
  induction ps as [|q ps IH]; intros r r' n Hrun.
  - injection Hrun as <-. split; [by left|].
    split; [done|]. by intros p v ?%elem_of_nil.
  - simpl in Hrun. destruct (store r q) as [r1|] eqn:Hr1; [|done].
    simpl in Hrun.
    apply store_Some in Hr1 as (vq & Hq & ->).
    destruct (IH _ _ n Hrun) as [Hsome Hnone]. simpl in *. split.
    + intros p [Hp|(Hp & v & Hv & Hn)]%Hsome.
      * destruct (decide (Voyage_Number vq = n)) as [<-|Hne].
        -- rewrite lookup_insert_eq in Hp. injection Hp as <-.
           right. split; [by left|eauto].
        -- rewrite lookup_insert_ne in Hp by done. by left.
      * right. split; [by right|eauto].
    + intros [Hp Hps]%Hnone.
      destruct (decide (Voyage_Number vq = n)) as [<-|Hne].
      { by rewrite lookup_insert_eq in Hp. }
      rewrite lookup_insert_ne in Hp by done. split; [done|].
      intros p v [->|Hin]%elem_of_cons Hv; [congruence|by eapply Hps].
Qed.

(** What the built repository holds under a number. *)
Lemma NewVoyageRepository_lookup r n :
  NewVoyageRepository = Some r →
  (∀ p, voyages r !! n = Some p →
     p ∈ preloaded ∧ ∃ v, deref p = Some v ∧ Voyage_Number v = n)
  ∧ (voyages r !! n = None →
     ∀ p v, p ∈ preloaded → deref p = Some v → Voyage_Number v ≠ n).
Proof.
  rewrite NewVoyageRepository_store_all. intros Hrun.
  destruct (store_all_lookup _ _ _ n Hrun) as [Hsome Hnone]. split.
  - intros p [Hp|Hp]%Hsome; [|done]. simpl in Hp.
    by rewrite lookup_empty in Hp.
  - by intros [_ Hps]%Hnone.
Qed.

(** *** [Find] *)

(** C7. [NewVoyageRepository] completes when each of the eight pointers
    has a record behind it.  On the repository it builds, [Find] with a
    number that exactly one preloaded record has returns that record and
    no error; with a number that no preloaded record has it returns [nil]
    and [ErrUnknown]; and whatever the number, it returns either that, or
    a preloaded record with that number and no error. *)
Theorem Find_spec :
  ((∀ p, p ∈ preloaded → is_Some (deref p)) →
   is_Some NewVoyageRepository)
  ∧ (∀ r n, NewVoyageRepository = Some r →
       (∀ p v,
          p ∈ preloaded → deref p = Some v → Voyage_Number v = n →
          (∀ p' v', p' ∈ preloaded → deref p' = Some v' →
                    Voyage_Number v' = n → p' = p) →
          Find r n = (p, None))
       ∧ ((∀ p v, p ∈ preloaded → deref p = Some v → Voyage_Number v ≠ n) →
          Find r n = (nil, ErrUnknown))
       ∧ (Find r n = (nil, ErrUnknown)
          ∨ ∃ p v, p ∈ preloaded ∧ deref p = Some v
                   ∧ Voyage_Number v = n ∧ Find r n = (p, None))).
Proof.
  split.
  - intros Hps. rewrite NewVoyageRepository_store_all.
    by apply store_all_Some.
  - intros r n Hnew.
    destruct (NewVoyageRepository_lookup r n Hnew) as [Hsome Hnone].
    unfold Find. destruct (voyages r !! n) as [q|] eqn:Hq.
    + destruct (Hsome q eq_refl) as (Hin & vq & Hvq & Hn). split_and!.
      * intros p v Hp Hv Hpn Huniq. by rewrite (Huniq q vq).
      * intros Hno. by destruct (Hno q vq).
      * right. by exists q, vq.
    + split_and!; [|done|by left].
      intros p v Hp Hv Hpn _. by destruct (Hnone eq_refl p v).
Qed.

(** C9. On the repository [NewVoyageRepository] builds, [Find] returns a
    [nil] record exactly when it returns an error: it returns either a
    preloaded pointer that is not [nil] and no error, or [nil] and
    [ErrUnknown]. *)
Theorem Find_record_xor_error r n :
  NewVoyageRepository = Some r →
  ((Find r n).1 = nil ↔ (Find r n).2 ≠ None)
  ∧ (((Find r n).1 ≠ nil ∧ (Find r n).1 ∈ preloaded ∧ (Find r n).2 = None)
     ∨ Find r n = (nil, ErrUnknown)).
Proof.
  intros Hnew.
  destruct (NewVoyageRepository_lookup r n Hnew) as [Hsome _].
  unfold Find. destruct (voyages r !! n) as [q|]; simpl.
  - destruct (Hsome q eq_refl) as (Hin & vq & Hvq & _).
    apply deref_not_nil in Hvq. split; [|by left].
    split; [done|]. by intros [].
  - split; [|by right]. done.
Qed.

(** *** Records that share a number, and a constructor that panics *)

(** What the map holds under [n] once the pointers of [ps] are stored:
    the last pointer of [ps] to a record with the number [n], and what it
    held before when there is none. *)
Lemma store_all_last ps :
  ∀ r r' n, store_all ps r = Some r' →
    voyages r' !! n
    = match last (filter (λ p, Voyage_Number <$> deref p = Some n) ps) with
      | Some p => Some p
      | None => voyages r !! n
      end.
Proof.
  induction ps as [|q ps IH]; intros r r' n Hrun.
  - by injection Hrun as <-.
  - simpl in Hrun. destruct (store r q) as [r1|] eqn:Hr1; [|done].
    simpl in Hrun. apply store_Some in Hr1 as (vq & Hq & ->).
    rewrite (IH _ _ n Hrun), filter_cons. simpl.
    destruct (decide (Voyage_Number <$> deref q = Some n)) as [Hn|Hn];
      rewrite Hq in Hn; simpl in Hn.
    + injection Hn as <-. rewrite last_cons.
      destruct (last _); [done|]. by rewrite lookup_insert_eq.
    + destruct (last _); [done|].
      rewrite lookup_insert_ne; [done|]. by intros <-.
Qed.

(** X8. On the repository [NewVoyageRepository] builds, [Find] returns the
    pointer stored last among those whose record has the number asked
    for, and [nil] with [ErrUnknown] when there is none: of two preloaded
    records with one number, only the later can be found. *)
Theorem Find_last_stored r n :
  NewVoyageRepository = Some r →
  Find r n
  = match last (filter (λ p, Voyage_Number <$> deref p = Some n) preloaded)
    with
    | Some p => (p, None)
    | None => (nil, ErrUnknown)
    end.
Proof.
  rewrite NewVoyageRepository_store_all. intros Hrun.
  unfold Find. rewrite (store_all_last _ _ _ n Hrun). simpl.
  destruct (last _); [done|]. by rewrite lookup_empty.
Qed.



End Repository.

(** *** Examples *)

(** Eight records with numbers of their own, at the addresses 1 to 8. *)
Definition sample_voyage (n : string) : Voyage (Number := string) unit :=
  {| Voyage_Number := n; Voyage_Schedule := tt |}.

Definition sample_heap : gmap positive (Voyage (Number := string) unit) :=
  list_to_map
    [(1%positive, sample_voyage "V100"); (2%positive, sample_voyage "V300");
     (3%positive, sample_voyage "V400"); (4%positive, sample_voyage "0100S");
     (5%positive, sample_voyage "0200T"); (6%positive, sample_voyage "0300A");
     (7%positive, sample_voyage "0301S"); (8%positive, sample_voyage "0400S")].

Definition sample_repository : voyageRepository (Number := string) :=
  {| voyages :=
       list_to_map
         [("V100", ref 1); ("V300", ref 2); ("V400", ref 3);
          ("0100S", ref 4); ("0200T", ref 5); ("0300A", ref 6);
          ("0301S", ref 7); ("0400S", ref 8)] |}.

Example NewVoyageRepository_sample :
  NewVoyageRepository unit sample_heap
    (ref 1) (ref 2) (ref 3) (ref 4) (ref 5) (ref 6) (ref 7) (ref 8)
  = Some sample_repository.
Proof. vm_compute. reflexivity. Qed.

Example Find_sample_known :
  Find string "unknown voyage" sample_repository "V300" = (ref 2, None).
Proof. vm_compute. reflexivity. Qed.

Example Find_sample_unknown :
  Find string "unknown voyage" sample_repository "V200"
  = (nil, ErrUnknown string "unknown voyage").
Proof. vm_compute. reflexivity. Qed.

(** A variable that is [nil]: the constructor panics. *)
Example NewVoyageRepository_nil :
  NewVoyageRepository unit sample_heap
    (ref 1) (ref 2) nil (ref 4) (ref 5) (ref 6) (ref 7) (ref 8)
  = None.
Proof. vm_compute. reflexivity. Qed.

(** Two records with one number: the one stored last is found. *)
Example Find_sample_shared_number :
  (r ← NewVoyageRepository unit
         (<[2%positive := sample_voyage "V100"]> sample_heap)
         (ref 1) (ref 2) (ref 3) (ref 4) (ref 5) (ref 6) (ref 7) (ref 8);
   Some (Find string "unknown voyage" r "V100"))
  = Some (ref 2, None).
Proof. vm_compute. reflexivity. Qed.

Lemma Find_record_xor_error_witness :
  ((Find string "unknown voyage" sample_repository "V300").1 = nil
   ↔ (Find string "unknown voyage" sample_repository "V300").2 ≠ None)
  ∧ (((Find string "unknown voyage" sample_repository "V300").1 ≠ nil
      ∧ (Find string "unknown voyage" sample_repository "V300").1
        ∈ preloaded (ref 1) (ref 2) (ref 3) (ref 4) (ref 5) (ref 6) (ref 7)
            (ref 8)
      ∧ (Find string "unknown voyage" sample_repository "V300").2 = None)
     ∨ Find string "unknown voyage" sample_repository "V300"
       = (nil, ErrUnknown string "unknown voyage")).
Proof.
  apply (Find_record_xor_error unit string "unknown voyage" sample_heap
           (ref 1) (ref 2) (ref 3) (ref 4) (ref 5) (ref 6) (ref 7) (ref 8)
           sample_repository "V300").
  vm_compute. reflexivity.
Defined.

Lemma Find_spec_witness :
  Find string "unknown voyage" sample_repository "V300" = (ref 2, None)
  ∧ Find string "unknown voyage" sample_repository "V200"
    = (nil, ErrUnknown string "unknown voyage").
Proof.
  destruct (Find_spec unit string "unknown voyage" sample_heap
              (ref 1) (ref 2) (ref 3) (ref 4) (ref 5) (ref 6) (ref 7) (ref 8))
    as [_ Hfind].
  split.
  - destruct (Hfind sample_repository "V300" NewVoyageRepository_sample)
      as (Hknown & _ & _).
    apply (Hknown (ref 2) (sample_voyage "V300")).
    + apply (list_elem_of_lookup_2 _ 1). reflexivity.
    + vm_compute. reflexivity.
    + reflexivity.
    + intros p' v' Hin Hv' Hn. unfold preloaded in Hin.
      repeat (apply elem_of_cons in Hin as [->|Hin]);
        try (vm_compute in Hv'; injection Hv' as <-; discriminate Hn);
        [reflexivity|by apply elem_of_nil in Hin].
  - destruct (Hfind sample_repository "V200" NewVoyageRepository_sample)
      as (_ & Hunknown & _).
    apply Hunknown. intros p v Hin Hv. unfold preloaded in Hin.
    repeat (apply elem_of_cons in Hin as [->|Hin]);
      try (vm_compute in Hv; injection Hv as <-; discriminate);
      by apply elem_of_nil in Hin.
Defined.

(** The eight records, the second with the number of the first. *)
Definition sample_heap_shared
  : gmap positive (Voyage (Number := string) unit) :=
  <[2%positive := sample_voyage "V100"]> sample_heap.

Definition sample_repository_shared : voyageRepository (Number := string) :=
  {| voyages :=
       list_to_map
         [("V100", ref 2); ("V400", ref 3);
          ("0100S", ref 4); ("0200T", ref 5); ("0300A", ref 6);
          ("0301S", ref 7); ("0400S", ref 8)] |}.

Lemma Find_last_stored_witness :
  Find string "unknown voyage" sample_repository_shared "V100"
  = match
      last
        (filter
           (λ p, Voyage_Number unit <$> deref unit sample_heap_shared p
                 = Some "V100")
           (preloaded (ref 1) (ref 2) (ref 3) (ref 4) (ref 5) (ref 6) (ref 7)
              (ref 8)))
    with
    | Some p => (p, None)
    | None => (nil, ErrUnknown string "unknown voyage")
    end.
Proof.
  apply (Find_last_stored unit string "unknown voyage" sample_heap_shared
           (ref 1) (ref 2) (ref 3) (ref 4) (ref 5) (ref 6) (ref 7) (ref 8)
           sample_repository_shared "V100").
  vm_compute. reflexivity.
Defined.

Example Find_last_stored_sample :
  Find string "unknown voyage" sample_repository_shared "V100"
  = (ref 2, None).
Proof. vm_compute. reflexivity. Qed.

End Inmem.
